(** * currency_convert.py: the naive CSV reader and writer, the per-row
      transform and the locale handling of [convert_currency]

    The development embeds [src/currency_convert.py]:

    - [Regex]: the fragment of Python's [re] module the program uses, as a
      backtracking matcher in continuation-passing style (priority order of
      alternatives, greedy and lazy repetition, one capture group, [search]
      and [findall]);
    - [Csv]: [NaiveCSV.reader] (the pattern of line 82 applied to
      [line.rstrip()]) and [CSVWriter.writerow];
    - [Locale]: the part of the process-wide state of Python's [locale]
      module that [convert_currency] reads and writes;
    - [Program]: [convert_currency] and the loop of [main] (lines 166-169),
      with Python's list indexing.

    Text is [list ascii]: strings of characters with code points below
    256. *)

From Stdlib Require Import Ascii String ZArith Lia.
From stdpp Require Import base list gmap strings.

Local Open Scope Z_scope.
Local Open Scope nat_scope.

(** ** Text and character classes *)

Abbreviation text := (list ascii).

Definition str (s : string) : text := list_ascii_of_string s.

Definition dquote : ascii := "034"%char.
Definition squote : ascii := "039"%char.
Definition backslash : ascii := "092"%char.
Definition comma : ascii := ","%char.
Definition newline : ascii := "010"%char.

(** The whitespace of [str]: what [\s] matches in a [str] pattern and what
    [str.rstrip()] strips. Below code point 256 these are the six ASCII
    characters (tab, line feed, vertical tab, form feed, carriage return,
    space), the four separators 28 to 31, the next-line character 133 and
    the no-break space 160. *)
Definition isspace (c : ascii) : bool :=
  match nat_of_ascii c with
  | 9 | 10 | 11 | 12 | 13 | 28 | 29 | 30 | 31 | 32 | 133 | 160 => true
  | _ => false
  end.

Definition is_char (a : ascii) (c : ascii) : bool := Ascii.eqb a c.

(** [[^...]]: any character not in the list. *)
Definition none_of (l : list ascii) (c : ascii) : bool :=
  negb (existsb (Ascii.eqb c) l).

(** [.] without DOTALL: any character but a line feed. *)
Definition dot (c : ascii) : bool := negb (Ascii.eqb c newline).

(** [str.rstrip()]: drop the trailing run of whitespace. *)
Fixpoint rstrip (s : text) : text :=
  match s with
  | [] => []
  | c :: t =>
      match rstrip t with
      | [] => if isspace c then [] else [c]
      | t' => c :: t'
      end
  end.

(** [sep.join(l)] *)
Fixpoint join (sep : text) (l : list text) : text :=
  match l with
  | [] => []
  | [x] => x
  | x :: l' => x ++ sep ++ join sep l'
  end.

(** ** The regular expressions of [re], as a backtracking matcher *)

Module Regex.

Inductive re : Type :=
| Eps                              (* the empty pattern *)
| Chr (p : ascii → bool)           (* a literal, a class or [.] *)
| Eol                              (* [$] *)
| Cat (r1 r2 : re)                 (* concatenation *)
| Alt (r1 r2 : re)                 (* [r1|r2], left first *)
| Star (greedy : bool) (r : re)    (* [r*] and [r*?] *)
| Group (r : re).                  (* the capturing group [(r)] *)

(** [r+] and [r+?] *)
Definition Plus (greedy : bool) (r : re) : re := Cat r (Star greedy r).

(** The content of group 1, when it has taken part in the match. *)
Abbreviation env := (option text).

(** A continuation receives the captures and the rest of the subject. *)
Abbreviation kont A := (env → text → option A).

(** [$] without MULTILINE: at the end of the subject, or just before a
    line feed that ends it. *)
Definition at_eol (s : text) : bool :=
  match s with
  | [] => true
  | [c] => Ascii.eqb c newline
  | _ => false
  end.

(** Repetition. Each iteration must consume a character (as sre's
    repeat operators refuse an empty iteration), so [n], which starts at the
    length of the subject, bounds the number of iterations. The greedy
    loop tries one more iteration before the continuation, the lazy loop
    the continuation first. *)
Fixpoint star_loop {A} (greedy : bool) (body : kont A → kont A)
    (k : kont A) (n : nat) (e : env) (s : text) {struct n} : option A :=
  match n with
  | 0 => k e s
  | S n' =>
      let again :=
        body (λ e' s', if length s' <? length s
                       then star_loop greedy body k n' e' s' else None) in
      if greedy then
        match again e s with Some x => Some x | None => k e s end
      else
        match k e s with Some x => Some x | None => again e s end
  end.

(** [m r k e s]: match [r] at the head of [s], then continue with [k];
    [None] is failure, after which the caller backtracks. *)
Fixpoint m {A} (r : re) (k : kont A) (e : env) (s : text) {struct r}
    : option A :=
  match r with
  | Eps => k e s
  | Chr p =>
      match s with
      | c :: s' => if p c then k e s' else None
      | [] => None
      end
  | Eol => if at_eol s then k e s else None
  | Cat r1 r2 => m r1 (m r2 k) e s
  | Alt r1 r2 =>
      match m r1 k e s with Some x => Some x | None => m r2 k e s end
  | Star g r' => star_loop g (m r') k (length s) e s
  | Group r' =>
      m r' (λ _ s', k (Some (take (length s - length s') s)) s') e s
  end.

(** A match anchored at the head of [s]: group 1 and the text after the
    match. *)
Definition re_match (r : re) (s : text) : option (env * text) :=
  m r (λ e s', Some (e, s')) None s.

(** [search]: the first position at which the pattern matches; the result
    is the text from the start of the match, group 1, and the text after
    the match. *)
Fixpoint re_search (r : re) (s : text) : option (text * (env * text)) :=
  match re_match r s with
  | Some x => Some (s, x)
  | None =>
      match s with
      | [] => None
      | _ :: t => re_search r t
      end
  end.

(** [findall] for a pattern with one group: the list of the group's
    contents (the empty string for a group that took no part). The next
    search starts where the match ended, or one character on after an
    empty match. [None] is an exhausted loop budget. *)
Fixpoint findall_from (fuel : nat) (r : re) (s : text)
    : option (list text) :=
  match fuel with
  | 0 => None
  | S fuel' =>
      match re_search r s with
      | None => Some []
      | Some (s0, (e, s1)) =>
          let item := default [] e in
          if length s1 <? length s0 then
            cons item <$> findall_from fuel' r s1
          else
            match s1 with
            | [] => Some [item]
            | _ :: t => cons item <$> findall_from fuel' r t
            end
      end
  end.

Definition findall (r : re) (s : text) : option (list text) :=
  findall_from (S (length s)) r s.

End Regex.

(** ** The naive CSV reader and writer *)

Module Csv.
Import Regex.

(** The pattern of line 82 is, with DQ for the double quote character,

      s*   (   [^,DQ']+?
             | DQ (?:[^DQ\\]|\\.)* DQ
             | ' (?:[^'\\]|\\.)*       )   \s* (?:,|$)

    where the spaces between the parts are not in the source. *)

(** [(?:[^q\\]|\\.)*]: the inside of a span quoted with [q]; a character
    that is neither the quote nor a backslash, or a backslash and the
    character after it. *)
Definition quoted_body (q : ascii) : re :=
  Star true (Alt (Chr (none_of [q; backslash]))
                 (Cat (Chr (is_char backslash)) (Chr dot))).

(** First alternative, [[^,DQ']+?]: one or more characters other than a
    comma and the two quotes, as few as possible. *)
Definition unquoted_field : re :=
  Plus false (Chr (none_of [comma; dquote; squote])).

(** Second alternative: a span in double quotes, quotes included. *)
Definition dquoted_field : re :=
  Cat (Chr (is_char dquote)) (Cat (quoted_body dquote) (Chr (is_char dquote))).

(** Third alternative: an opening single quote and the inside of a span;
    the source has no closing quote here. *)
Definition squoted_field : re :=
  Cat (Chr (is_char squote)) (quoted_body squote).

(** The content of the group, which is the only group of the pattern: it
    is what [findall] returns for each match. *)
Definition field : re :=
  Alt unquoted_field (Alt dquoted_field squoted_field).

(** [\s*(?:,|$)] *)
Definition field_end : re :=
  Cat (Star true (Chr isspace)) (Alt (Chr (is_char comma)) Eol).

(** The whole pattern: [s*], a run of the letter s (not of whitespace),
    then the group, then [field_end]. *)
Definition csv_re : re :=
  Cat (Star true (Chr (is_char "s"%char)))
      (Cat (Group field) field_end).

(** The body of the loop of [NaiveCSV.reader], lines 82-83:
    [r.findall(line.rstrip())]. *)
Definition tokenize (line : text) : option (list text) :=
  findall csv_re (rstrip line).

(** [NaiveCSV.reader]: the input file is iterated line by line. *)
Definition reader (input_file : list text) : option (list (list text)) :=
  mapM tokenize input_file.

(** [re.search(',', item)] as a truth value. *)
Definition has_comma (item : text) : bool :=
  match re_search (Chr (is_char comma)) item with
  | Some _ => true
  | None => false
  end.

(** The loop of [CSVWriter.writerow], lines 53-58: [output] grows by one
    element per item. *)
Definition writerow_items (row : list text) : list text :=
  foldl (λ output item,
           if has_comma item
           then output ++ [dquote :: item ++ [dquote]]
           else output ++ [item]) [] row.

(** The line [writerow] writes, line 60. *)
Definition serialize (row : list text) : text :=
  join [comma] (writerow_items row) ++ [newline].

(** [CSVWriter.writerow]: the line is appended to the output file. *)
Definition writerow (output_file : text) (row : list text) : text :=
  output_file ++ serialize row.

(** [CSVWriter.writerows] *)
Definition writerows (output_file : text) (data : list (list text)) : text :=
  foldl writerow output_file data.

End Csv.

(** ** Exceptions, and computations that may raise *)

Inductive exn : Type := IndexError | ValueError | LocaleError.

Inductive result (A : Type) : Type :=
| Ok (a : A)
| Raise (e : exn).
Arguments Ok {A} a.
Arguments Raise {A} e.

(** A computation over the state [S] that returns or raises. After an
    exception nothing more runs: the state is the one at the raise. *)
Definition M (S A : Type) : Type := S → S * result A.

Definition ret {S A} (a : A) : M S A := λ s, (s, Ok a).

Definition raise {S A} (e : exn) : M S A := λ s, (s, Raise e).

Definition bind {S A B} (c : M S A) (k : A → M S B) : M S B :=
  λ s, match c s with
       | (s', Ok a) => k a s'
       | (s', Raise e) => (s', Raise e)
       end.

Notation "x <- c ;; k" := (bind c (λ x, k))
  (at level 100, c at next level, right associativity).

Definition lift {S A} (r : result A) : M S A := λ s, (s, r).

(** ** The state of Python's [locale] module *)

Module Locale.

Inductive category : Type :=
LC_CTYPE | LC_COLLATE | LC_TIME | LC_MONETARY | LC_MESSAGES | LC_NUMERIC.

#[global] Instance category_eq_dec : EqDecision category.
Proof. solve_decision. Defined.

(** The locale of each category, and the module-level dictionary
  [locale._override_localeconv] that [localeconv()] lays over the C
  library's answer. *)
Record state : Type := {
categories : category → string;
override_localeconv : gmap string Z
}.

(** [locale.getlocale()]: the category defaults to [LC_CTYPE]. The library
    parses the name of the category into a pair, and [setlocale] builds a
    name back from the pair. The model takes a name that this round trip
    leaves alone, as the name C of a process that has not set its locale:
    the pair is modelled by the name. A name that the library cannot parse
    (a [ValueError]) or maps to another name is outside the model. *)
Definition getlocale : M state string :=
λ st, (st, Ok (categories st LC_CTYPE)).

(** [locale.setlocale(category, name)]: [locale.Error] for a locale the
  system does not have. *)
Definition setlocale (available : string → bool) (cat : category)
  (name : string) : M state unit :=
λ st, if available name
      then ({| categories := λ c, if decide (c = cat) then name
                                  else categories st c;
               override_localeconv := override_localeconv st |}, Ok tt)
      else (st, Raise LocaleError).

(** [locale._override_localeconv.update(entries)] *)
Definition override_update (entries : list (string * Z)) : M state unit :=
λ st, ({| categories := categories st;
          override_localeconv :=
            foldl (λ d kv, <[kv.1 := kv.2]> d) (override_localeconv st)
                  entries |}, Ok tt).

End Locale.

(** ** [convert_currency] and the loop of [main] *)

Module Program.
Import Csv Locale.

(** [row[i]] and [row[i] = v]: an index below zero counts from the end. *)
Definition py_index (n : nat) (i : Z) : option nat :=
if (0 <=? i)%Z then
  if (i <? Z.of_nat n)%Z then Some (Z.to_nat i) else None
else
  if (- Z.of_nat n <=? i)%Z then Some (Z.to_nat (Z.of_nat n + i)) else None.

Definition py_getitem {A} (l : list A) (i : Z) : result A :=
match py_index (length l) i with
| Some j =>
    match l !! j with
    | Some x => Ok x
    | None => Raise IndexError
    end
| None => Raise IndexError
end.

Definition py_setitem {A} (l : list A) (i : Z) (v : A) : result (list A) :=
match py_index (length l) i with
| Some j => Ok (<[j := v]> l)
| None => Raise IndexError
end.

(** What the program writes to: the locale state and the output file. *)
Record process : Type := {
locale : Locale.state;
output_file : text
}.

Definition in_locale {A} (c : M Locale.state A) : M process A :=
λ p, let '(st, r) := c (locale p) in
     ({| locale := st; output_file := output_file p |}, r).

(** [csvwriter.writerow(row)] *)
Definition csvwriter_writerow (row : list text) : M process unit :=
λ p, ({| locale := locale p;
         output_file := writerow (output_file p) row |}, Ok tt).

Section Platform.

(** Python's floats, the locales installed on the system and the C library's
monetary formatting are the platform's: the program is modelled over
them. *)
Variable F : Type.
Variable fmul : F → F → F.

(** [float(s)]: [None] is a [ValueError]. *)
Variable float_of_str : text → option F.

Variable available : string → bool.

(** [locale.currency(val, symbol, grouping, international)] under the
locale state of the call: [None] is a [ValueError]. *)
Variable currency : Locale.state → F → bool → bool → bool → option text.

Definition float (s : text) : M process F :=
match float_of_str s with
| Some v => ret v
| None => raise ValueError
end.

Definition locale_currency (val : F) (symbol grouping international : bool)
: M Locale.state text :=
λ st, match currency st val symbol grouping international with
    | Some s => (st, Ok s)
    | None => (st, Raise ValueError)
    end.

(** [convert_currency], lines 116-134. *)
Definition convert_currency (value multiplier : F) (loc : string)
(show_currency_symbol : bool) : M Locale.state text :=
let computed_value := fmul value multiplier in
orig_loc <- getlocale ;;
_ <- setlocale available LC_MONETARY loc ;;
_ <- override_update [("p_cs_precedes"%string, 1%Z);
                    ("n_cs_precedes"%string, 1%Z)] ;;
converted <- locale_currency computed_value show_currency_symbol true true ;;
_ <- setlocale available LC_MONETARY orig_loc ;;
ret converted.

(** The body of the loop of [main], lines 167-169, with the defaults of
[convert_currency] for the locale and the symbol. *)
Definition loop_body (field : Z) (multiplier : F) (row : list text)
: M process unit :=
fld <- lift (py_getitem row (field - 1)) ;;
value <- float fld ;;
converted <- in_locale (convert_currency value multiplier "fr_FR" false) ;;
row' <- lift (py_setitem row (field - 1) converted) ;;
csvwriter_writerow row'.

(** The loop of [main], line 166: the first exception ends the run. *)
Fixpoint main_loop (field : Z) (multiplier : F) (csvreader : list (list text))
: M process unit :=
match csvreader with
| [] => ret tt
| row :: rest =>
  _ <- loop_body field multiplier row ;;
  main_loop field multiplier rest
end.

End Platform.

End Program.

(** ** The serializer's contract, in the specification's words *)

Module Spec.

(** A field is wrapped in double quotes if and only if it contains a comma. *)
Definition quoted_iff_comma (f : text) : text :=
  if decide (comma ∈ f) then [dquote] ++ f ++ [dquote] else f.

(** The fields in order, a single comma before each one but the first, then
    one line terminator. *)
Definition line_of (fields : list text) : text :=
  match fields with
  | [] => []
  | f :: fs => f ++ concat ((λ g, comma :: g) <$> fs)
  end ++ [newline].

Definition serialized (record : list text) : text :=
  line_of (quoted_iff_comma <$> record).

End Spec.

(** ** Metatheory of the matcher *)

Module RegexFacts.
Import Regex.

(** The declarative reading of a pattern: [matches r e s e' s'] when [r]
    can consume a prefix of [s], leaving [s'], and turn the captures [e]
    into [e']. It forgets the order in which the matcher explores. *)
Inductive matches : re → env → text → env → text → Prop :=
| M_eps e s : matches Eps e s e s
| M_chr p c e s : p c = true → matches (Chr p) e (c :: s) e s
| M_eol e s : at_eol s = true → matches Eol e s e s
| M_cat r1 r2 e s e1 s1 e2 s2 :
    matches r1 e s e1 s1 → matches r2 e1 s1 e2 s2 →
    matches (Cat r1 r2) e s e2 s2
| M_alt_l r1 r2 e s e' s' :
    matches r1 e s e' s' → matches (Alt r1 r2) e s e' s'
| M_alt_r r1 r2 e s e' s' :
    matches r2 e s e' s' → matches (Alt r1 r2) e s e' s'
| M_star_stop g r e s : matches (Star g r) e s e s
| M_star_step g r e s e1 s1 e2 s2 :
    matches r e s e1 s1 → length s1 < length s →
    matches (Star g r) e1 s1 e2 s2 →
    matches (Star g r) e s e2 s2
| M_group r e s e1 s1 :
    matches r e s e1 s1 →
    matches (Group r) e s (Some (take (length s - length s1) s)) s1.

(** The least number of characters a pattern consumes. *)
Fixpoint min_len (r : re) : nat :=
  match r with
  | Eps | Eol | Star _ _ => 0
  | Chr _ => 1
  | Cat r1 r2 => min_len r1 + min_len r2
  | Alt r1 r2 => min_len r1 `min` min_len r2
  | Group r' => min_len r'
  end.

Lemma matches_suffix r e s e' s' :
  matches r e s e' s' → ∃ w, s = w ++ s'.
Proof.
  induction 1 as [ | p c e s _ | | r1 r2 e s e1 s1 e2 s2 _ [w1 ->] _ [w2 ->]
                 | | | | g r e s e1 s1 e2 s2 _ [w1 ->] _ _ [w2 ->] | ];
    try (by exists []); try done.
  - by exists [c].
  - exists (w1 ++ w2). by rewrite <- app_assoc.
  - exists (w1 ++ w2). by rewrite <- app_assoc.
Qed.

Lemma matches_min_len r e s e' s' :
  matches r e s e' s' → min_len r + length s' ≤ length s.
Proof. induction 1; simpl in *; lia. Qed.

Lemma matches_length r e s e' s' :
  matches r e s e' s' → length s' ≤ length s.
Proof. intros H%matches_min_len. lia. Qed.

Section Soundness.
Context {A : Type}.

Lemma star_loop_sound g r
    (IH : ∀ (k : kont A) e s x, m r k e s = Some x →
            ∃ e' s', matches r e s e' s' ∧ k e' s' = Some x)
    n (k : kont A) e s x :
  star_loop g (m r) k n e s = Some x →
  ∃ e' s', matches (Star g r) e s e' s' ∧ k e' s' = Some x.
Proof.
  revert e s. induction n as [|n IHn]; intros e s; simpl.
  { intros Hk. exists e, s. split; [constructor | done]. }
  set (again := m r _).
  assert (Hagain : again e s = Some x →
            ∃ e' s', matches (Star g r) e s e' s' ∧ k e' s' = Some x).
  { intros (e1 & s1 & Hr & Hk)%IH.
    destruct (Nat.ltb_spec (length s1) (length s)) as [Hlt|]; [|done].
    apply IHn in Hk as (e2 & s2 & Hstar & Hk).
    exists e2, s2. split; [|done]. by apply (M_star_step g r e s e1 s1). }
  assert (Hstop : k e s = Some x →
            ∃ e' s', matches (Star g r) e s e' s' ∧ k e' s' = Some x).
  { intros Hk. exists e, s. split; [constructor | done]. }
  destruct g.
  - destruct (again e s) eqn:E; [intros [= ->]; auto | auto].
  - destruct (k e s) eqn:E; [intros [= ->]; auto | auto].
Qed.

(** Whatever the matcher returns was returned by its continuation, at
    a state the pattern can reach. *)
Lemma m_sound r : ∀ (k : kont A) e s x,
  m r k e s = Some x →
  ∃ e' s', matches r e s e' s' ∧ k e' s' = Some x.
Proof.
  induction r as [ | p | | r1 IH1 r2 IH2 | r1 IH1 r2 IH2 | g r IH | r IH ];
    intros k e s x; simpl.
  - intros Hk. exists e, s. split; [constructor | done].
  - destruct s as [|c s]; [done|]. destruct (p c) eqn:Hp; [|done].
    intros Hk. exists e, s. split; [by constructor | done].
  - destruct (at_eol s) eqn:He; [|done].
    intros Hk. exists e, s. split; [by constructor | done].
  - intros (e1 & s1 & H1 & (e2 & s2 & H2 & Hk)%IH2)%IH1.
    exists e2, s2. split; [by econstructor | done].
  - destruct (m r1 k e s) eqn:E.
    + intros [= ->]. apply IH1 in E as (e' & s' & H & Hk).
      exists e', s'. split; [by apply M_alt_l | done].
    + intros (e' & s' & H & Hk)%IH2.
      exists e', s'. split; [by apply M_alt_r | done].
  - by apply star_loop_sound.
  - intros (e1 & s1 & H & Hk)%IH.
    eexists _, s1. split; [by apply (M_group r e s e1 s1) | done].
Qed.

Lemma m_fail r e s : m r (λ _ _, @None A) e s = None.
Proof.
  destruct (m r _ e s) eqn:E; [|done].
  by apply m_sound in E as (? & ? & _ & ?).
Qed.

(** The matcher calls its continuation only on what is left of the
    subject. *)
Lemma m_ext r : ∀ (k1 k2 : kont A) e s,
  (∀ e' s', length s' ≤ length s → k1 e' s' = k2 e' s') →
  m r k1 e s = m r k2 e s.
Proof.
  induction r as [ | p | | r1 IH1 r2 IH2 | r1 IH1 r2 IH2 | g r IH | r IH ];
    intros k1 k2 e s Hk; simpl.
  - by apply Hk.
  - destruct s as [|c s]; [done|]. destruct (p c); [|done].
    apply Hk. simpl. lia.
  - destruct (at_eol s); [by apply Hk | done].
  - apply IH1. intros e' s' Hs'. apply IH2. intros e2 s2 Hs2.
    apply Hk. lia.
  - by rewrite (IH1 k1 k2), (IH2 k1 k2).
  - generalize (length s). intros n.
    revert e s Hk. induction n as [|n IHn]; intros e s Hk; simpl.
    { by apply Hk. }
    rewrite (Hk e s) by done.
    erewrite IH; [done|]. intros e' s' Hs'. simpl.
    destruct (Nat.ltb_spec (length s') (length s)); [|done].
    apply IHn. intros e2 s2 Hs2. apply Hk. lia.
  - apply IH. intros e' s' Hs'. by apply Hk.
Qed.

(** The bound of [star_loop] never cuts a repetition short: any bound
    that covers the subject gives the same result. *)
Lemma star_loop_fuel g r (k : kont A) : ∀ n1 n2 e s,
  length s ≤ n1 → length s ≤ n2 →
  star_loop g (m r) k n1 e s = star_loop g (m r) k n2 e s.
Proof.
  assert (Hnil : ∀ n e, star_loop g (m r) k n e [] = k e []).
  { intros [|n] e; simpl; [done|]. rewrite m_fail.
    destruct g; [done|]. by destruct (k e []). }
  induction n1 as [|n1 IHn]; intros n2 e s H1 H2.
  { destruct s; [|simpl in H1; lia]. by rewrite !Hnil. }
  destruct n2 as [|n2].
  { destruct s; [|simpl in H2; lia]. by rewrite !Hnil. }
  simpl.
  rewrite (m_ext r _ (λ e' s', if length s' <? length s
                               then star_loop g (m r) k n2 e' s' else None)).
  { done. }
  intros e' s' _. destruct (Nat.ltb_spec (length s') (length s)); [|done].
  apply IHn; lia.
Qed.
End Soundness.

(** *** [search] and [findall] *)

Lemma re_match_sound r s e s' :
  re_match r s = Some (e, s') → matches r None s e s'.
Proof.
  unfold re_match. intros (e1 & s1 & H & [= -> ->])%m_sound. done.
Qed.

Lemma re_search_sound r s s0 e s1 :
  re_search r s = Some (s0, (e, s1)) →
  re_match r s0 = Some (e, s1) ∧ length s0 ≤ length s.
Proof.
  induction s as [|c s IH]; simpl.
  - destruct (re_match r []) eqn:E; [|done]. by intros [= <- ->].
  - destruct (re_match r (c :: s)) eqn:E.
    + intros [= <- ->]. done.
    + intros [H1 H2]%IH. split; [done | lia].
Qed.

Lemma re_search_length r s s0 e s1 :
  re_search r s = Some (s0, (e, s1)) →
  length s1 ≤ length s0 ∧ length s0 ≤ length s.
Proof.
  intros [H%re_match_sound%matches_length ?]%re_search_sound. done.
Qed.

(** The loop of [findall] ends within its budget. *)
Lemma findall_from_total r : ∀ fuel s,
  length s < fuel → ∃ l, findall_from fuel r s = Some l.
Proof.
  induction fuel as [|fuel IH]; intros s Hs; [lia|]. simpl.
  destruct (re_search r s) as [[s0 [e s1]]|] eqn:E; [|by eexists].
  apply re_search_length in E as [H1 H0].
  destruct (Nat.ltb_spec (length s1) (length s0)).
  - destruct (IH s1) as [l ->]; [lia|]. by eexists.
  - destruct s1 as [|c t]; [by eexists|].
    destruct (IH t) as [l ->]; [simpl in *; lia|]. by eexists.
Qed.

Lemma findall_from_fuel r : ∀ fuel1 fuel2 s,
  length s < fuel1 → length s < fuel2 →
  findall_from fuel1 r s = findall_from fuel2 r s.
Proof.
  induction fuel1 as [|fuel1 IH]; intros [|fuel2] s H1 H2; try lia. simpl.
  destruct (re_search r s) as [[s0 [e s1]]|] eqn:E; [|done].
  apply re_search_length in E as [Hs1 Hs0].
  destruct (Nat.ltb_spec (length s1) (length s0)).
  - by rewrite (IH fuel2) by lia.
  - destruct s1 as [|c t]; [done|].
    by rewrite (IH fuel2) by (simpl in *; lia).
Qed.

Lemma findall_total r s : ∃ l, findall r s = Some l.
Proof. apply findall_from_total. lia. Qed.

End RegexFacts.

(** ** Facts about text *)

Section TextFacts.

Lemma rstrip_nil_iff s : rstrip s = [] ↔ Forall (λ c, isspace c = true) s.
Proof.
  induction s as [|c s IH]; simpl; [by split|].
  destruct (rstrip s) eqn:E.
  - destruct (isspace c) eqn:Hc; split; try done.
    + intros _. constructor; [done | by apply IH].
    + intros H. apply Forall_cons in H as [H _]. congruence.
  - split; [done|]. intros H. apply Forall_cons in H as [_ H].
    by apply IH in H.
Qed.

Lemma rstrip_app_r a b : rstrip b ≠ [] → rstrip (a ++ b) = a ++ rstrip b.
Proof.
  intros Hb. induction a as [|c a IH]; simpl; [done|].
  rewrite IH. destruct (a ++ rstrip b) eqn:E; [|done].
  by apply app_eq_nil in E as [_ ?].
Qed.

Lemma rstrip_app_space a w :
  Forall (λ c, isspace c = true) w → rstrip (a ++ w) = rstrip a.
Proof.
  intros Hw. induction a as [|c a IH]; simpl.
  - by apply rstrip_nil_iff.
  - by rewrite IH.
Qed.

Lemma rstrip_snoc a c : isspace c = false → rstrip (a ++ [c]) = a ++ [c].
Proof.
  intros Hc. rewrite rstrip_app_r; simpl; by rewrite Hc.
Qed.

(** A text whose last character is not whitespace is left alone. *)
Lemma rstrip_last s c : last s = Some c → isspace c = false → rstrip s = s.
Proof.
  intros Hl Hc. destruct (last_Some s c) as [[s' ->] _]; [done|].
  by apply rstrip_snoc.
Qed.

Lemma rstrip_cons_nonspace c s :
  isspace c = false → rstrip (c :: s) = c :: rstrip s.
Proof. intros Hc. simpl. destruct (rstrip s); by rewrite ?Hc. Qed.

Lemma Forall_rstrip (P : ascii → Prop) s : Forall P s → Forall P (rstrip s).
Proof.
  induction 1 as [|c s Hc Hs IH]; simpl; [done|].
  destruct (rstrip s); [destruct (isspace c); by repeat constructor|].
  by constructor.
Qed.

(** The first character of a text that is not whitespace. *)
Fixpoint lead (s : text) : option ascii :=
  match s with
  | [] => None
  | c :: t => if isspace c then lead t else Some c
  end.

Lemma lead_skip w s :
  Forall (λ c, isspace c = true) w → lead (w ++ s) = lead s.
Proof. induction 1 as [|c w Hc _ IH]; simpl; [done|]. by rewrite Hc. Qed.

(** If the text has a character that is not whitespace, the first such
    character is found within it. *)
Lemma lead_app_l w s c :
  last w = Some c → isspace c = false →
  ∃ d, lead (w ++ s) = Some d ∧ d ∈ w.
Proof.
  intros Hl Hc. destruct (last_Some w c) as [[w' ->] _]; [done|]. clear Hl.
  induction w' as [|a w' IH]; simpl.
  - rewrite Hc. exists c. split; [done | by left].
  - destruct (isspace a).
    + destruct IH as (d & -> & Hd). exists d. split; [done | by right].
    + exists a. split; [done | by left].
Qed.

End TextFacts.

(** ** Repetition of a character class *)

Module ClassLoops.
Import Regex RegexFacts.

Section Loops.
Context {A : Type} (p : ascii → bool) (k : kont A).

(** [p*] read off the subject: the longest run first. *)
Fixpoint greedy_chr (e : env) (s : text) : option A :=
  match s with
  | c :: t =>
      if p c then
        match greedy_chr e t with Some x => Some x | None => k e s end
      else k e s
  | [] => k e []
  end.

(** [p*?] read off the subject: the shortest run first. *)
Fixpoint lazy_chr (e : env) (s : text) : option A :=
  match k e s with
  | Some x => Some x
  | None =>
      match s with
      | c :: t => if p c then lazy_chr e t else None
      | [] => None
      end
  end.

Lemma star_greedy_chr n e s :
  length s ≤ n → star_loop true (m (Chr p)) k n e s = greedy_chr e s.
Proof.
  revert s. induction n as [|n IH]; intros s Hn.
  { destruct s; [done | simpl in Hn; lia]. }
  destruct s as [|c t]; simpl; [done|].
  destruct (p c); [|done].
  rewrite (proj2 (Nat.ltb_lt _ _) (Nat.lt_succ_diag_r (length t))).
  rewrite <- IH; [done | simpl in Hn; lia].
Qed.

Lemma star_lazy_chr n e s :
  length s ≤ n → star_loop false (m (Chr p)) k n e s = lazy_chr e s.
Proof.
  revert s. induction n as [|n IH]; intros s Hn.
  { destruct s; [|simpl in Hn; lia]. simpl. by destruct (k e []). }
  destruct s as [|c t]; simpl; [done|].
  destruct (k e (c :: t)); [done|]. destruct (p c); [|done].
  rewrite (proj2 (Nat.ltb_lt _ _) (Nat.lt_succ_diag_r (length t))).
  rewrite <- IH; [done | simpl in Hn; lia].
Qed.

(** The greedy loop takes the whole run [w] when the continuation
    accepts what follows it and the run cannot go further. *)
Lemma greedy_chr_run e w s x :
  Forall (λ c, p c = true) w → (∀ c, head s = Some c → p c = false) →
  k e s = Some x → greedy_chr e (w ++ s) = Some x.
Proof.
  intros Hw Hs Hk. induction Hw as [|c w Hc _ IH]; simpl.
  - destruct s as [|d t]; simpl; [done|]. by rewrite (Hs d).
  - by rewrite Hc, IH.
Qed.

(** The lazy loop stops at the first point where the continuation
    accepts. *)
Lemma lazy_chr_run e w s x :
  Forall (λ c, p c = true) w →
  (∀ w1 w2, w = w1 ++ w2 → w2 ≠ [] → k e (w2 ++ s) = None) →
  k e s = Some x → lazy_chr e (w ++ s) = Some x.
Proof.
  intros Hw. induction Hw as [|c w Hc _ IH]; intros Hfail Hk.
  - destruct s; simpl; by rewrite Hk.
  - assert (H0 : k e (c :: w ++ s) = None) by by apply (Hfail [] (c :: w)).
    simpl. rewrite H0, Hc.
    apply IH; [|done]. intros w1 w2 -> ?. by apply (Hfail (c :: w1)).
Qed.
End Loops.

(** Inversion of the declarative reading, pattern by pattern. *)
Lemma matches_chr_inv p e s e' s' :
  matches (Chr p) e s e' s' → ∃ c, s = c :: s' ∧ p c = true ∧ e' = e.
Proof. inversion 1; subst. by eexists. Qed.

Lemma matches_cat_inv r1 r2 e s e' s' :
  matches (Cat r1 r2) e s e' s' →
  ∃ e1 s1, matches r1 e s e1 s1 ∧ matches r2 e1 s1 e' s'.
Proof. inversion 1; subst. by eexists _, _. Qed.

Lemma matches_alt_inv r1 r2 e s e' s' :
  matches (Alt r1 r2) e s e' s' →
  matches r1 e s e' s' ∨ matches r2 e s e' s'.
Proof. inversion 1; subst; auto. Qed.

Lemma matches_group_inv r e s e' s' :
  matches (Group r) e s e' s' →
  e' = Some (take (length s - length s') s) ∧ ∃ e1, matches r e s e1 s'.
Proof. inversion 1; subst. split; [done | by eexists]. Qed.

Lemma matches_eol_inv e s e' s' :
  matches Eol e s e' s' → s' = s ∧ e' = e ∧ at_eol s = true.
Proof. by inversion 1; subst. Qed.

(** A run matched by [p*] consists of characters of the class. *)
Lemma matches_star_chr g p e s e' s' :
  matches (Star g (Chr p)) e s e' s' →
  e' = e ∧ ∃ w, s = w ++ s' ∧ Forall (λ c, p c = true) w.
Proof.
  remember (Star g (Chr p)) as r eqn:Hr.
  induction 1 as [ | | | | | | g' r' e s
                 | g' r' e s e1 s1 e2 s2 H1 _ Hlt _ IH | ]; try done.
  - split; [done|]. by exists [].
  - injection Hr as -> ->.
    apply matches_chr_inv in H1 as (c & -> & Hc & ->).
    destruct IH as (-> & w & -> & Hw); [done|].
    split; [done|]. exists (c :: w). split; [done | by constructor].
Qed.

End ClassLoops.

(** ** The pattern of the reader *)

Module CsvFacts.
Import Regex RegexFacts ClassLoops Csv.

(** The characters an unquoted field is made of. *)
Definition plain_char (c : ascii) : bool := none_of [comma; dquote; squote] c.

(** What may follow a field: a comma and more text, or the end of the
    line. *)
Definition delim_then (after : option text) : text :=
  match after with
  | Some rest => comma :: rest
  | None => []
  end.

Lemma none_of_spec l c : none_of l c = true ↔ c ∉ l.
Proof.
  unfold none_of. rewrite negb_true_iff.
  induction l as [|a l IH]; simpl.
  - split; [intros _; apply not_elem_of_nil | done].
  - rewrite not_elem_of_cons, <- IH, orb_false_iff, Ascii.eqb_neq. done.
Qed.

Lemma is_char_spec a c : is_char a c = true ↔ c = a.
Proof. unfold is_char. rewrite Ascii.eqb_eq. split; congruence. Qed.

Lemma plain_not_comma c : plain_char c = true → c ≠ comma.
Proof. intros H%none_of_spec ->. apply H. by left. Qed.

(** *** Unfolding the matcher on the parts of the pattern *)

Section Unfold.
Context {A : Type} (k : kont A).

Lemma m_chr_cons p e c t :
  m (Chr p) k e (c :: t) = if p c then k e t else None.
Proof. reflexivity. Qed.

Lemma star_loop_greedy_S body n e s :
  star_loop true body k (S n) e s =
  match body (λ e' s', if length s' <? length s
                       then star_loop true body k n e' s' else None) e s
  with Some x => Some x | None => k e s end.
Proof. reflexivity. Qed.

Lemma m_alt_l r1 r2 e s x :
  m r1 k e s = Some x → m (Alt r1 r2) k e s = Some x.
Proof. simpl. by intros ->. Qed.

Lemma m_alt_r r1 r2 e s :
  m r1 k e s = None → m (Alt r1 r2) k e s = m r2 k e s.
Proof. simpl. by intros ->. Qed.

Lemma m_field_end e s :
  m field_end k e s =
  greedy_chr isspace (m (Alt (Chr (is_char comma)) Eol) k) e s.
Proof. by rewrite <- (star_greedy_chr _ _ (length s)). Qed.

Lemma m_unquoted_field e c t :
  m unquoted_field k e (c :: t) =
  if plain_char c then lazy_chr plain_char k e t else None.
Proof.
  rewrite <- (star_lazy_chr _ _ (length t)) by done. reflexivity.
Qed.

Lemma m_group_field e s :
  m (Cat (Group field) field_end) k e s =
  m field (λ _ s', m field_end k (Some (take (length s - length s') s)) s')
    e s.
Proof. reflexivity. Qed.

Lemma m_leading_s r e s :
  m (Cat (Star true (Chr (is_char "s"%char))) r) k e s =
  greedy_chr (is_char "s"%char) (m r k) e s.
Proof. by rewrite <- (star_greedy_chr _ _ (length s)). Qed.
End Unfold.

(** *** The end of a field *)

Lemma field_end_inv e s e' s' :
  matches field_end e s e' s' →
  e' = e ∧ (lead s = None ∨ lead s = Some comma).
Proof.
  intros (e1 & s1 & (-> & w & -> & Hw)%matches_star_chr & Halt)%matches_cat_inv.
  rewrite lead_skip by done.
  apply matches_alt_inv in Halt as [Hc|He].
  - apply matches_chr_inv in Hc as (c & -> & ->%is_char_spec & ->).
    split; [done | by right].
  - apply matches_eol_inv in He as (-> & -> & He).
    split; [done|]. left.
    destruct s1 as [|c [|]]; simpl in *; try done.
    apply Ascii.eqb_eq in He as ->. done.
Qed.

Lemma field_end_fail {A} (k : kont A) e s c :
  lead s = Some c → c ≠ comma → m field_end k e s = None.
Proof.
  intros Hl Hc. destruct (m field_end k e s) eqn:E; [|done].
  apply m_sound in E as (e' & s' & (_ & [H|H])%field_end_inv & _);
    congruence.
Qed.

Lemma field_end_accept {A} (k : kont A) e ws after x :
  Forall (λ c, isspace c = true) ws →
  k e (default [] after) = Some x →
  m field_end k e (ws ++ delim_then after) = Some x.
Proof.
  intros Hws Hk. rewrite m_field_end.
  apply greedy_chr_run; [done | |].
  - destruct after; simpl; intros c [= <-]. done.
  - destruct after as [rest|]; simpl in *; [|done].
    by rewrite Hk.
Qed.

(** *** An unquoted field at the head of the subject *)

(** A field the reader returns as it stands: made of characters of the
    unquoted class, the last of which is not whitespace. *)
Definition plain (body : text) : Prop :=
  Forall (λ c, plain_char c = true) body ∧
  ∃ z, last body = Some z ∧ isspace z = false.

Lemma take_consumed (a b : text) : take (length (a ++ b) - length b) (a ++ b) = a.
Proof. rewrite length_app, Nat.add_sub. apply take_app_length. Qed.

Lemma capture_plain body ws after e :
  plain body → Forall (λ c, isspace c = true) ws →
  m (Cat (Group field) field_end)
    (λ e s', Some (e, s')) e (body ++ ws ++ delim_then after)
  = Some (Some body, default [] after).
Proof.
  intros [Hbody (z & Hlast & Hz)] Hws.
  destruct body as [|c b]; [done|].
  apply Forall_cons in Hbody as [Hc Hb].
  rewrite m_group_field. apply m_alt_l.
  change ((c :: b) ++ ws ++ delim_then after)
    with (c :: b ++ ws ++ delim_then after).
  rewrite m_unquoted_field, Hc.
  apply lazy_chr_run; [done | |].
  - intros w1 w2 -> Hw2.
    assert (last w2 = Some z) as Hl2.
    { rewrite last_cons, last_app in Hlast.
      destruct (last w2) eqn:E; [done|]. by apply last_None in E. }
    destruct (lead_app_l w2 (ws ++ delim_then after) z Hl2 Hz)
      as (d & Hd & Hin).
    apply (field_end_fail _ _ _ d); [done|].
    apply plain_not_comma. rewrite Forall_forall in Hb. apply Hb.
    apply elem_of_app. by right.
  - apply field_end_accept; [done|].
    change (c :: b ++ ws ++ delim_then after)
      with ((c :: b) ++ ws ++ delim_then after).
    by rewrite take_consumed.
Qed.

(** An unquoted field after any run of the letter s, when the field
    itself does not begin with one. *)
Lemma re_match_plain n body ws after :
  plain body → head body ≠ Some "s"%char →
  Forall (λ c, isspace c = true) ws →
  re_match csv_re (replicate n "s"%char ++ body ++ ws ++ delim_then after)
  = Some (Some body, default [] after).
Proof.
  intros Hbody Hhead Hws. unfold re_match, csv_re. rewrite m_leading_s.
  apply greedy_chr_run.
  - apply Forall_replicate. by apply is_char_spec.
  - intros c Hc. destruct (is_char "s" c) eqn:E; [|done].
    apply is_char_spec in E as ->.
    destruct body as [|b body]; [by destruct Hbody as (_ & ? & ? & _)|].
    simpl in Hc, Hhead. congruence.
  - by apply capture_plain.
Qed.

(** *** What every match of the pattern looks like *)

Lemma min_len_field : min_len field = 1.
Proof. reflexivity. Qed.

Lemma field_first e s e' s' :
  matches field e s e' s' →
  ∃ c t, s = c :: t ∧ (plain_char c = true ∨ c = dquote ∨ c = squote).
Proof.
  intros [H|[H|H]%matches_alt_inv]%matches_alt_inv;
    apply matches_cat_inv in H as (e1 & s1 & H & _);
    apply matches_chr_inv in H as (c & -> & Hc & _); exists c, s1;
    (split; [done|]).
  - by left.
  - right; left. by apply is_char_spec.
  - right; right. by apply is_char_spec.
Qed.

Lemma csv_re_inv e s e' s' :
  matches csv_re e s e' s' →
  ∃ w s1 s2,
    s = w ++ s1 ∧ Forall (λ c, is_char "s" c = true) w ∧
    (∃ e1 e2, matches field e1 s1 e2 s2) ∧
    e' = Some (take (length s1 - length s2) s1) ∧
    (∃ e3, matches field_end e3 s2 e3 s').
Proof.
  intros (e1 & s1 & (-> & w & -> & Hw)%matches_star_chr & H)%matches_cat_inv.
  apply matches_cat_inv in H as (e2 & s2 & Hg & Hend).
  apply matches_group_inv in Hg as (-> & e3 & Hf).
  pose proof Hend as [-> _]%field_end_inv.
  exists w, s1, s2. eauto 10.
Qed.

(** Every match captures at least one character and moves on. *)
Lemma re_match_csv_nonempty s e s' :
  re_match csv_re s = Some (e, s') →
  ∃ cap, e = Some cap ∧ cap ≠ [] ∧ length s' < length s.
Proof.
  intros (w & s1 & s2 & -> & _ & (e1 & e2 & Hf) & -> & e3 & Hend)
    %re_match_sound%csv_re_inv.
  apply matches_min_len in Hf. rewrite min_len_field in Hf.
  apply matches_length in Hend.
  eexists. split; [done|]. split.
  - intros E%(f_equal length). rewrite length_take in E. simpl in E. lia.
  - rewrite length_app. lia.
Qed.

(** *** Stepping [findall] *)

Lemma findall_step r s cap rest :
  re_match r s = Some (Some cap, rest) → length rest < length s →
  findall r s = cons cap <$> findall r rest.
Proof.
  intros Hm Hlt. unfold findall.
  assert (re_search r s = Some (s, (Some cap, rest))) as Hs.
  { destruct s; simpl; by rewrite Hm. }
  cbn [findall_from]. rewrite Hs. simpl.
  rewrite (proj2 (Nat.ltb_lt _ _) Hlt).
  by rewrite (findall_from_fuel r (length s) (S (length rest))) by lia.
Qed.

Lemma findall_from_S fuel r s :
  findall_from (S fuel) r s =
  match re_search r s with
  | None => Some []
  | Some (s0, (e, s1)) =>
      if length s1 <? length s0 then
        cons (default [] e) <$> findall_from fuel r s1
      else
        match s1 with
        | [] => Some [default [] e]
        | _ :: t => cons (default [] e) <$> findall_from fuel r t
        end
  end.
Proof. reflexivity. Qed.

Lemma findall_skip r c s :
  re_match r (c :: s) = None → findall r (c :: s) = findall r s.
Proof.
  intros Hm. unfold findall. cbn [length].
  rewrite (findall_from_S (S (length s)) r (c :: s)).
  rewrite (findall_from_S (length s) r s).
  assert (re_search r (c :: s) = re_search r s) as -> by (simpl; by rewrite Hm).
  destruct (re_search r s) as [[s0 [e s1]]|] eqn:E; [|done].
  apply re_search_length in E as [H1 H0].
  destruct (Nat.ltb_spec (length s1) (length s0)).
  - by rewrite (findall_from_fuel r (S (length s)) (length s)) by lia.
  - destruct s1 as [|d t]; [done|].
    by rewrite (findall_from_fuel r (S (length s)) (length s))
      by (simpl in *; lia).
Qed.

Lemma findall_csv_nil : findall csv_re [] = Some [].
Proof. reflexivity. Qed.

Lemma findall_from_nonempty : ∀ fuel s l,
  findall_from fuel csv_re s = Some l → Forall (λ f, f ≠ []) l.
Proof.
  induction fuel as [|fuel IH]; intros s l; simpl; [done|].
  destruct (re_search csv_re s) as [[s0 [e s1]]|] eqn:E.
  2: { intros [= <-]. constructor. }
  apply re_search_sound in E as [E _].
  apply re_match_csv_nonempty in E as (cap & -> & Hcap & Hlt).
  rewrite (proj2 (Nat.ltb_lt _ _) Hlt). simpl.
  intros (l' & Hl' & ->)%fmap_Some. constructor; [done | by eapply IH].
Qed.

(** One unquoted field, then the rest of the line. *)
Lemma findall_plain n body ws rest :
  plain body → head body ≠ Some "s"%char →
  Forall (λ c, isspace c = true) ws →
  findall csv_re (replicate n "s"%char ++ body ++ ws ++ comma :: rest)
  = cons body <$> findall csv_re rest.
Proof.
  intros Hb Hh Hws. apply findall_step.
  - apply (re_match_plain n body ws (Some rest)); done.
  - rewrite !length_app. simpl. lia.
Qed.

Lemma findall_plain_last n body ws :
  plain body → head body ≠ Some "s"%char →
  Forall (λ c, isspace c = true) ws →
  findall csv_re (replicate n "s"%char ++ body ++ ws) = Some [body].
Proof.
  intros Hb Hh Hws.
  rewrite (findall_step csv_re _ body []).
  - by rewrite findall_csv_nil.
  - pose proof (re_match_plain n body ws None Hb Hh Hws) as H.
    simpl in H. by rewrite app_nil_r in H.
  - destruct Hb as (_ & z & Hz & _).
    destruct body; [done|]. rewrite !length_app. simpl. lia.
Qed.

(** *** A field made of the letter s only *)

Lemma field_at_delim_fail {A} (k : kont A) e after :
  m (Cat (Group field) field_end) k e (delim_then after) = None.
Proof.
  destruct (m _ k e _) eqn:E; [|done].
  apply m_sound in E as (e' & s' & H & _).
  apply matches_cat_inv in H as (e1 & s1 & [_ [e2 H]]%matches_group_inv & _).
  apply field_first in H as (c & t & Heq & Hc).
  destruct after as [rest|]; simpl in Heq; [|done].
  injection Heq as <- _. by destruct Hc as [Hc|[Hc|Hc]].
Qed.

Lemma re_match_all_s n after :
  re_match csv_re (replicate (S n) "s"%char ++ delim_then after)
  = Some (Some ["s"%char], default [] after).
Proof.
  unfold re_match, csv_re. rewrite m_leading_s.
  induction n as [|n IH].
  - change (replicate 1 "s"%char ++ delim_then after)
      with ("s"%char :: delim_then after).
    cbn [greedy_chr].
    change (is_char "s" "s") with true. cbv iota.
    assert (greedy_chr (is_char "s")
              (m (Cat (Group field) field_end) (λ e s', Some (e, s')))
              None (delim_then after) = None) as ->.
    { destruct after as [rest|]; simpl delim_then; cbn [greedy_chr].
      - change (is_char "s" comma) with false. cbv iota.
        apply (field_at_delim_fail _ _ (Some rest)).
      - apply (field_at_delim_fail _ _ None). }
    apply (capture_plain ["s"%char] [] after); [|done].
    split; [by repeat constructor | by exists "s"%char].
  - change (replicate (S (S n)) "s"%char ++ delim_then after)
      with ("s"%char :: (replicate (S n) "s"%char ++ delim_then after)).
    cbn [greedy_chr]. change (is_char "s" "s") with true. cbv iota.
    by rewrite IH.
Qed.

(** *** Quotes that are never closed *)

Lemma re_match_open_dquote t :
  dquote ∉ t → re_match csv_re (dquote :: t) = None.
Proof.
  intros Hq. destruct (re_match csv_re (dquote :: t)) as [[e s']|] eqn:E;
    [|done]. exfalso.
  apply re_match_sound, csv_re_inv in E
    as (w & s1 & s2 & Heq & Hw & (e1 & e2 & Hf) & _).
  destruct w as [|a w]; simpl in Heq.
  2: { injection Heq as <- _. by apply Forall_cons in Hw as [? _]. }
  subst s1.
  apply matches_alt_inv in Hf as [H|[H|H]%matches_alt_inv];
    apply matches_cat_inv in H as (e3 & s3 & Hc & H);
    apply matches_chr_inv in Hc as (c & [= <- <-] & Hc & ->); try done.
  apply matches_cat_inv in H as (e4 & s4 & [w' ->]%matches_suffix & Hclose).
  apply matches_chr_inv in Hclose as (c & -> & ->%is_char_spec & _).
  apply Hq, elem_of_app. right. by left.
Qed.

Section QuotedBody.
Context {A : Type} (k : kont A) (q : ascii) (Hq : q ≠ backslash).

Lemma quoted_body_stops (k' : kont A) e s' :
  s' = [] ∨ head s' = Some q →
  m (Alt (Chr (none_of [q; backslash]))
         (Cat (Chr (is_char backslash)) (Chr dot))) k' e s' = None.
Proof.
  intros [->|Hs]; [done|].
  destruct s' as [|c s'']; [done|]. injection Hs as ->.
  rewrite m_alt_r.
  - change (m (Cat ?a ?b) ?k0 ?e0 ?s0) with (m a (m b k0) e0 s0).
    rewrite m_chr_cons.
    destruct (is_char backslash q) eqn:E; [|done].
    by apply is_char_spec in E.
  - rewrite m_chr_cons.
    destruct (none_of [q; backslash] q) eqn:E; [|done].
    apply none_of_spec in E. exfalso. apply E. by left.
Qed.

(** The inside of a quoted span runs over a text that has neither the
    quote nor a backslash, up to the quote or the end of the subject. *)
Lemma quoted_body_run e t s' x :
  Forall (λ c, none_of [q; backslash] c = true) t →
  s' = [] ∨ head s' = Some q →
  k e s' = Some x → m (quoted_body q) k e (t ++ s') = Some x.
Proof.
  intros Ht Hs Hk. unfold quoted_body. cbn [m].
  assert (∀ n, length (t ++ s') ≤ n →
    star_loop true
      (m (Alt (Chr (none_of [q; backslash]))
              (Cat (Chr (is_char backslash)) (Chr dot)))) k n e (t ++ s')
    = Some x) as H; [|by apply H].
  intros n. revert n. induction Ht as [|c t Hc _ IH]; intros n Hn.
  - destruct n; [done|]. rewrite star_loop_greedy_S.
    by rewrite quoted_body_stops.
  - destruct n as [|n]; [simpl in Hn; lia|].
    change ((c :: t) ++ s') with (c :: (t ++ s')).
    rewrite star_loop_greedy_S.
    erewrite m_alt_l; [done|]. rewrite m_chr_cons, Hc.
    cbn [length].
    rewrite (proj2 (Nat.ltb_lt _ _) (Nat.lt_succ_diag_r (length (t ++ s')))).
    apply IH. simpl in Hn. lia.
Qed.
End QuotedBody.

Lemma none_of_quote q t :
  q ∉ t → backslash ∉ t → Forall (λ c, none_of [q; backslash] c = true) t.
Proof.
  intros Hq Hb. apply Forall_forall. intros c Hc. apply none_of_spec.
  rewrite !not_elem_of_cons. split_and!; [by intros -> .. |].
  apply not_elem_of_nil.
Qed.

(** A span in double quotes is captured with its quotes. *)
Lemma re_match_dquoted f after :
  dquote ∉ f → backslash ∉ f →
  re_match csv_re (dquote :: f ++ dquote :: delim_then after)
  = Some (Some (dquote :: f ++ [dquote]), default [] after).
Proof.
  intros Hq Hb. unfold re_match, csv_re. rewrite m_leading_s.
  cbn [greedy_chr]. change (is_char "s" dquote) with false. cbv iota.
  rewrite m_group_field. unfold field.
  rewrite m_alt_r by done. apply m_alt_l.
  unfold dquoted_field.
  change (m (Cat ?a ?b) ?k ?e ?s) with (m a (m b k) e s).
  rewrite m_chr_cons. change (is_char dquote dquote) with true. cbv iota.
  change (m (Cat ?a ?b) ?k ?e ?s) with (m a (m b k) e s).
  apply quoted_body_run; [done | by apply none_of_quote | by right |].
  rewrite m_chr_cons. change (is_char dquote dquote) with true. cbv iota.
  replace (take _ _) with (dquote :: f ++ [dquote]).
  - apply (field_end_accept _ _ [] after); done.
  - change (dquote :: f ++ dquote :: delim_then after)
      with ((dquote :: f) ++ [dquote] ++ delim_then after).
    rewrite (app_assoc (dquote :: f)), take_consumed. done.
Qed.

Lemma re_match_open_squote t :
  squote ∉ t → backslash ∉ t →
  re_match csv_re (squote :: t) = Some (Some (squote :: t), []).
Proof.
  intros Hq Hb. unfold re_match, csv_re. rewrite m_leading_s.
  cbn [greedy_chr]. change (is_char "s" squote) with false. cbv iota.
  rewrite m_group_field. unfold field.
  rewrite m_alt_r by done. rewrite m_alt_r by done.
  unfold squoted_field.
  change (m (Cat ?a ?b) ?k ?e ?s) with (m a (m b k) e s).
  rewrite m_chr_cons. change (is_char squote squote) with true.
  cbv iota. rewrite <- (app_nil_r t) at 1.
  apply quoted_body_run; [done | by apply none_of_quote | by left |].
  rewrite take_ge by (simpl; lia).
  apply (field_end_accept _ _ [] None); done.
Qed.

(** *** The writer *)

Lemma has_comma_spec item : has_comma item = true ↔ comma ∈ item.
Proof.
  unfold has_comma. induction item as [|c t IH].
  - simpl. split; [done | by intros ?%not_elem_of_nil].
  - cbn [re_search]. unfold re_match. cbn [m].
    destruct (is_char comma c) eqn:E.
    + apply is_char_spec in E as ->. split; [by left | done].
    + rewrite IH, elem_of_cons. split; [by right|].
      intros [Hc|]; [|done]. symmetry in Hc.
      apply (proj2 (is_char_spec comma c)) in Hc. congruence.
Qed.

(** How [writerow] writes one item. *)
Definition rendered (item : text) : text :=
  if has_comma item then dquote :: item ++ [dquote] else item.

Lemma writerow_items_map row : writerow_items row = rendered <$> row.
Proof.
  unfold writerow_items.
  assert (∀ acc,
    foldl (λ output item,
             if has_comma item
             then output ++ [dquote :: item ++ [dquote]]
             else output ++ [item]) acc row
    = acc ++ (rendered <$> row)) as H; [|by apply H].
  induction row as [|item row IH]; intros acc; simpl.
  - by rewrite app_nil_r.
  - rewrite IH. unfold rendered.
    destruct (has_comma item); by rewrite <- app_assoc.
Qed.

End CsvFacts.

(** ** The reader on whole lines *)

Module ReaderFacts.
Import Regex RegexFacts ClassLoops Csv CsvFacts.

Lemma tokenize_total line : ∃ fields, tokenize line = Some fields.
Proof. apply findall_total. Qed.

Lemma tokenize_nonempty line fields :
  tokenize line = Some fields → Forall (λ f, f ≠ []) fields.
Proof. apply findall_from_nonempty. Qed.

Lemma rstrip_before_comma x rest :
  rstrip (x ++ comma :: rest) = x ++ comma :: rstrip rest.
Proof.
  rewrite rstrip_app_r; rewrite rstrip_cons_nonspace; done.
Qed.

Lemma plain_no_comma f : plain f → has_comma f = false.
Proof.
  intros [Hf _]. destruct (has_comma f) eqn:E; [|done].
  apply has_comma_spec in E. rewrite Forall_forall in Hf.
  by apply Hf, plain_not_comma in E.
Qed.

(** An unquoted field, after any run of the letter s, is returned without
    the run; the rest of the line is read on its own. *)
Lemma tokenize_plain n body rest :
  plain body → head body ≠ Some "s"%char →
  tokenize (replicate n "s"%char ++ body ++ comma :: rest)
  = cons body <$> tokenize rest.
Proof.
  intros Hb Hh. unfold tokenize.
  rewrite app_assoc, rstrip_before_comma, <- app_assoc.
  by apply (findall_plain n body []).
Qed.

Lemma tokenize_plain_last n body :
  plain body → head body ≠ Some "s"%char →
  tokenize (replicate n "s"%char ++ body) = Some [body].
Proof.
  intros Hb Hh. unfold tokenize.
  assert (rstrip (replicate n "s"%char ++ body) = replicate n "s"%char ++ body)
    as ->.
  { destruct Hb as (_ & z & Hz & Hs). apply (rstrip_last _ z); [|done].
    rewrite last_app, Hz. done. }
  pose proof (findall_plain_last n body [] Hb Hh) as H.
  rewrite app_nil_r in H. by apply H.
Qed.

Lemma tokenize_all_s n rest :
  tokenize (replicate (S n) "s"%char ++ comma :: rest)
  = cons ["s"%char] <$> tokenize rest.
Proof.
  unfold tokenize. rewrite rstrip_before_comma.
  apply findall_step.
  - apply (re_match_all_s n (Some (rstrip rest))).
  - rewrite length_app. simpl. lia.
Qed.

Lemma tokenize_all_s_last n :
  tokenize (replicate (S n) "s"%char) = Some [["s"%char]].
Proof.
  unfold tokenize.
  assert (rstrip (replicate (S n) "s"%char) = replicate (S n) "s"%char) as ->.
  { apply (rstrip_last _ "s"%char); [|done].
    change (S n) with (1 + n). rewrite Nat.add_comm, replicate_add.
    apply last_snoc. }
  rewrite (findall_step csv_re _ ["s"%char] []).
  - by rewrite findall_csv_nil.
  - pose proof (re_match_all_s n None) as H. simpl delim_then in H.
    by rewrite app_nil_r in H.
  - simpl. lia.
Qed.

(** An opening double quote that is never closed is passed over. *)
Lemma tokenize_open_dquote t :
  dquote ∉ t → tokenize (dquote :: t) = tokenize t.
Proof.
  intros Hq. unfold tokenize. rewrite rstrip_cons_nonspace by done.
  apply findall_skip, re_match_open_dquote.
  intros Hin. apply Hq. clear Hq.
  induction t as [|c t IH]; simpl in Hin; [done|].
  destruct (rstrip t) eqn:E.
  - destruct (isspace c); [by apply not_elem_of_nil in Hin|].
    apply list_elem_of_singleton in Hin as ->. by left.
  - apply elem_of_cons in Hin as [->|Hin]; [by left|]. right. by apply IH.
Qed.

(** An opening single quote that is never closed takes the rest of the
    line, commas included, into one field. *)
Lemma tokenize_open_squote t :
  squote ∉ t → backslash ∉ t →
  tokenize (squote :: t) = Some [squote :: rstrip t].
Proof.
  intros Hq Hb. unfold tokenize. rewrite rstrip_cons_nonspace by done.
  assert (∀ a, a ∉ t → a ∉ rstrip t) as Hsub.
  { intros a Ha Hin. apply Ha.
    assert (Forall (λ c, c ∈ t) (rstrip t)) as H.
    { apply Forall_rstrip, Forall_forall. auto. }
    rewrite Forall_forall in H. by apply H. }
  rewrite (findall_step csv_re _ (squote :: rstrip t) []).
  - by rewrite findall_csv_nil.
  - apply re_match_open_squote; by apply Hsub.
  - simpl. lia.
Qed.

(** A field with a comma, written by [writerow] and read back, keeps the
    quotes [writerow] put around it. *)
Lemma tokenize_serialize_quoted f :
  comma ∈ f → dquote ∉ f → backslash ∉ f →
  tokenize (serialize [f]) = Some [dquote :: f ++ [dquote]].
Proof.
  intros Hc Hq Hb. unfold tokenize, serialize.
  rewrite writerow_items_map. cbn [fmap list_fmap join]. unfold rendered.
  rewrite (proj2 (has_comma_spec f) Hc).
  rewrite rstrip_app_space by (by repeat constructor).
  rewrite (rstrip_last _ dquote); [|apply (last_snoc dquote (dquote :: f))|done].
  rewrite (findall_step csv_re _ (dquote :: f ++ [dquote]) []).
  - by rewrite findall_csv_nil.
  - exact (re_match_dquoted f None Hq Hb).
  - simpl. lia.
Qed.

Lemma isspace_plain c : isspace c = true → plain_char c = true.
Proof. destruct c as [[] [] [] [] [] [] [] []]; by vm_compute. Qed.

(** Whitespace before an unquoted field is part of the field returned. *)
Lemma tokenize_leading_space w body rest :
  w ≠ [] → Forall (λ c, isspace c = true) w → plain body →
  tokenize (w ++ body ++ comma :: rest) = cons (w ++ body) <$> tokenize rest.
Proof.
  intros Hne Hw (Hb & z & Hz & Hs).
  rewrite app_assoc. apply (tokenize_plain 0 (w ++ body) rest).
  - split.
    + apply Forall_app. split; [|done].
      eapply Forall_impl; [exact Hw|]. apply isspace_plain.
    + exists z. split; [|done]. by rewrite last_app, Hz.
  - destruct w as [|c w]; [done|]. apply Forall_cons in Hw as [Hc _].
    simpl. intros [= ->]. done.
Qed.

(** Whitespace after an unquoted field is consumed outside the field. *)
Lemma tokenize_trailing_space body w rest :
  plain body → head body ≠ Some "s"%char → Forall (λ c, isspace c = true) w →
  tokenize (body ++ w ++ comma :: rest) = cons body <$> tokenize rest.
Proof.
  intros Hb Hh Hw. unfold tokenize.
  rewrite !app_assoc, rstrip_before_comma, <- !app_assoc.
  by apply (findall_plain 0 body w).
Qed.

(** *** Lines made of unquoted fields *)

(** A field that comes back from the reader as it was written. *)
Definition returned_as_is (f : text) : Prop :=
  plain f ∧ head f ≠ Some "s"%char.

Lemma join_cons2 sep (x y : text) l :
  join sep (x :: y :: l) = x ++ sep ++ join sep (y :: l).
Proof. reflexivity. Qed.

Lemma join_last r :
  Forall returned_as_is r → r ≠ [] →
  ∃ z, last (join [comma] r) = Some z ∧ isspace z = false.
Proof.
  induction 1 as [|f r [(_ & z & Hz & Hs) _] Hr IH]; [done|]. intros _.
  destruct r as [|g r]; [by exists z|].
  destruct IH as (z' & Hz' & Hs'); [done|].
  exists z'. split; [|done].
  rewrite join_cons2, !last_app, Hz'. done.
Qed.

Lemma findall_join r :
  Forall returned_as_is r → findall csv_re (join [comma] r) = Some r.
Proof.
  induction 1 as [|f r [Hp Hh] Hr IH]; [done|].
  destruct r as [|g r].
  - pose proof (findall_plain_last 0 f [] Hp Hh) as H.
    rewrite app_nil_r in H. by apply H.
  - rewrite join_cons2.
    transitivity (cons f <$> findall csv_re (join [comma] (g :: r))).
    + exact (findall_plain 0 f [] _ Hp Hh (Forall_nil_2 _)).
    + by rewrite IH.
Qed.

Lemma serialize_plain r :
  Forall returned_as_is r → serialize r = join [comma] r ++ [newline].
Proof.
  intros Hr. unfold serialize. rewrite writerow_items_map.
  f_equal. f_equal. induction Hr as [|f r [Hp _] _ IH]; [done|].
  rewrite fmap_cons, IH. unfold rendered. by rewrite plain_no_comma.
Qed.

(** *** The writer against the specification's wording *)

Lemma rendered_spec f : rendered f = Spec.quoted_iff_comma f.
Proof.
  unfold rendered, Spec.quoted_iff_comma.
  destruct (has_comma f) eqn:E.
  - apply has_comma_spec in E. by rewrite decide_True.
  - rewrite decide_False; [done|]. intros H%has_comma_spec. congruence.
Qed.

Lemma join_line_of fields :
  join [comma] fields ++ [newline] = Spec.line_of fields.
Proof.
  unfold Spec.line_of. f_equal.
  induction fields as [|f [|g fs] IH]; [done | by rewrite app_nil_r |].
  rewrite join_cons2, IH. done.
Qed.

End ReaderFacts.

(** ** The loop of [main] and [convert_currency] *)

Module ProgramFacts.
Import Csv Locale Program.

Lemma bind_ok {S A B} (c : M S A) (k : A → M S B) s s' a :
  c s = (s', Ok a) → bind c k s = k a s'.
Proof. unfold bind. by intros ->. Qed.

Lemma bind_raise {S A B} (c : M S A) (k : A → M S B) s s' e :
  c s = (s', Raise e) → bind c k s = (s', Raise e).
Proof. unfold bind. by intros ->. Qed.

Lemma py_index_in_range n i :
  (0 ≤ i < Z.of_nat n)%Z → py_index n i = Some (Z.to_nat i).
Proof.
  intros [H0 Hn]. unfold py_index.
  by rewrite (proj2 (Z.leb_le _ _) H0), (proj2 (Z.ltb_lt _ _) Hn).
Qed.

Lemma py_index_wraps n i :
  (- Z.of_nat n ≤ i < 0)%Z → py_index n i = Some (Z.to_nat (Z.of_nat n + i)).
Proof.
  intros [Hn H0]. unfold py_index.
  by rewrite (proj2 (Z.leb_gt _ _) H0), (proj2 (Z.leb_le _ _) Hn).
Qed.

Lemma py_index_out_of_range n i :
  (Z.of_nat n ≤ i ∨ i < - Z.of_nat n)%Z → py_index n i = None.
Proof.
  intros H. unfold py_index.
  destruct (Z.leb_spec 0 i).
  - destruct (Z.ltb_spec i (Z.of_nat n)); [lia | done].
  - destruct (Z.leb_spec (- Z.of_nat n) i); [lia | done].
Qed.

Lemma py_getitem_out_of_range {A} (l : list A) i :
  (Z.of_nat (length l) ≤ i ∨ i < - Z.of_nat (length l))%Z →
  py_getitem l i = Raise IndexError.
Proof. intros H. unfold py_getitem. by rewrite py_index_out_of_range. Qed.

(** The locale state while [locale.currency] runs inside the call. *)
Definition during_call (loc : string) (st : Locale.state) : Locale.state :=
  {| categories := λ c, if decide (c = LC_MONETARY) then loc
                        else categories st c;
     override_localeconv :=
       <["n_cs_precedes"%string := 1%Z]>
         (<["p_cs_precedes"%string := 1%Z]> (override_localeconv st)) |}.

(** The locale state when the call has returned. *)
Definition after_call (loc : string) (st : Locale.state) : Locale.state :=
  {| categories := λ c, if decide (c = LC_MONETARY) then categories st LC_CTYPE
                        else categories (during_call loc st) c;
     override_localeconv := override_localeconv (during_call loc st) |}.

Section Platform.
Variable F : Type.
Variable fmul : F → F → F.
Variable float_of_str : text → option F.
Variable available : string → bool.
Variable currency : Locale.state → F → bool → bool → bool → option text.

Abbreviation convert_currency' := (convert_currency F fmul available currency).
Abbreviation loop_body' := (loop_body F fmul float_of_str available currency).
Abbreviation main_loop' := (main_loop F fmul float_of_str available currency).

(** The call returns exactly when both locales can be set and the
    formatting succeeds. *)
Lemma convert_currency_returns value multiplier loc sym st converted :
  available loc = true → available (categories st LC_CTYPE) = true →
  currency (during_call loc st) (fmul value multiplier) sym true true
    = Some converted →
  convert_currency' value multiplier loc sym st
  = (after_call loc st, Ok converted).
Proof.
  intros Hloc Horig Hfmt.
  unfold convert_currency, bind, getlocale, setlocale, override_update,
    locale_currency, ret. simpl. rewrite Hloc. simpl.
  fold (during_call loc st). rewrite Hfmt, Horig. done.
Qed.

Lemma convert_currency_inv value multiplier loc sym st st' converted :
  convert_currency' value multiplier loc sym st = (st', Ok converted) →
  st' = after_call loc st ∧
  currency (during_call loc st) (fmul value multiplier) sym true true
    = Some converted.
Proof.
  unfold convert_currency, bind, getlocale, setlocale, override_update,
    locale_currency, ret. simpl.
  destruct (available loc); [|done]. simpl. fold (during_call loc st).
  destruct (currency (during_call loc st) _ sym true true) as [c|]; [|done].
  destruct (available (categories st LC_CTYPE)); [|done].
  by intros [= <- <-].
Qed.

Lemma main_loop_app field multiplier pre rest p :
  main_loop' field multiplier (pre ++ rest) p =
  match main_loop' field multiplier pre p with
  | (p', Ok _) => main_loop' field multiplier rest p'
  | (p', Raise e) => (p', Raise e)
  end.
Proof.
  revert p. induction pre as [|row pre IH]; intros p; [done|].
  cbn [app main_loop]. unfold bind.
  destruct (loop_body' field multiplier row p) as [p1 [[]|e]]; [|done].
  apply IH.
Qed.

Lemma loop_body_index_error field multiplier row p :
  (Z.of_nat (length row) < field ∨ field ≤ - Z.of_nat (length row))%Z →
  loop_body' field multiplier row p = (p, Raise IndexError).
Proof.
  intros H. unfold loop_body. apply bind_raise. unfold lift.
  rewrite py_getitem_out_of_range; [done | lia].
Qed.

End Platform.

End ProgramFacts.

(** ** A platform for the worked examples *)

Module Example.
Import Locale Program.

(** Amounts in hundredths; the only text that parses is the one of the
    examples, and the only amount that formats is its product. *)
Definition float_of_str (s : text) : option Z :=
  if decide (s = str "10.00") then Some 1000%Z else None.

Definition fmul (a b : Z) : Z := (a * b / 100)%Z.

Definition available (name : string) : bool := true.

Definition currency (st : Locale.state) (v : Z) (symbol grouping intl : bool)
    : option text :=
  if decide (v = 1500%Z) then Some (str "15,00") else None.

(** The state of a process that has not touched its locale. *)
Definition start : process :=
  {| locale := {| categories := λ _, "C"%string; override_localeconv := ∅ |};
     output_file := [] |}.

Definition convert_currency :=
  Program.convert_currency Z fmul available currency.
Definition main_loop :=
  Program.main_loop Z fmul float_of_str available currency.
Definition loop_body :=
  Program.loop_body Z fmul float_of_str available currency.

End Example.

(** ** The properties of the specification *)

Import Regex RegexFacts Csv CsvFacts ReaderFacts Locale Program ProgramFacts.

Ltac unquoted_field :=
  split; [split; [repeat constructor | eexists; split; reflexivity]
         | let H := fresh in intros H; vm_compute in H; discriminate H].

(** C1, as the specification states it, fails: a field that begins with the
    letter s loses it, an empty field disappears, and whitespace at the end
    of a field is dropped. None of these fields has a comma or a quote. *)
Lemma roundtrip_counterexample :
  Forall (Forall (λ c, plain_char c = true)) [str "say"; []; str "a "] ∧
  tokenize (serialize [str "say"]) = Some [str "ay"] ∧
  tokenize (serialize [str "a"; []; str "b"]) = Some [str "a"; str "b"] ∧
  tokenize (serialize [str "a "; str "b"]) = Some [str "a"; str "b"] ∧
  ¬ (∀ r, Forall (Forall (λ c, plain_char c = true)) r →
          tokenize (serialize r) = Some r).
Proof.
  assert (Forall (Forall (λ c, plain_char c = true)) [str "say"; []; str "a "])
    as Hr by (repeat constructor).
  split_and!; [done | by vm_compute ..|].
  intros H. apply Forall_cons in Hr as [Hsay _].
  specialize (H [str "say"] (Forall_cons_2 _ _ _ Hsay (Forall_nil_2 _))).
  vm_compute in H. discriminate H.
Qed.

(** C1 (amended): for every record whose fields are not empty, contain no
    comma and no quote character, do not end in whitespace and do not begin
    with the letter s, tokenizing the line that [writerow] renders gives the
    record back. *)
Theorem roundtrip_unquoted r :
  Forall returned_as_is r → tokenize (serialize r) = Some r.
Proof.
  intros Hr. rewrite serialize_plain by done. unfold tokenize.
  rewrite rstrip_app_space by (by repeat constructor).
  destruct r as [|f r]; [done|].
  destruct (join_last (f :: r) Hr) as (z & Hz & Hs); [done|].
  rewrite (rstrip_last _ z) by done.
  by apply findall_join.
Qed.

Lemma roundtrip_unquoted_witness :
  Forall returned_as_is [str "100"; str "Smith John"; str "250.5"] ∧
  tokenize (serialize [str "100"; str "Smith John"; str "250.5"])
  = Some [str "100"; str "Smith John"; str "250.5"].
Proof.
  assert (Forall returned_as_is [str "100"; str "Smith John"; str "250.5"])
    as H by (repeat (constructor; [unquoted_field|]); constructor).
  split; [exact H | exact (roundtrip_unquoted _ H)].
Defined.

(** C2: the reader returns a quoted field with its quotes. For every field
    with a comma (and no double quote or backslash of its own) the line that
    [writerow] renders comes back as the field wrapped in double quotes, not
    as the field; so the line for [a,b] gives the five characters of the
    quoted text. A field in single quotes is split at its comma, the pattern
    having no closing single quote. *)
Theorem quoted_field_keeps_quotes :
  (∀ f, comma ∈ f → dquote ∉ f → backslash ∉ f →
        tokenize (serialize [f]) = Some [dquote :: f ++ [dquote]]) ∧
  serialize [str "a,b"] = dquote :: str "a,b" ++ [dquote; newline] ∧
  tokenize (serialize [str "a,b"]) = Some [dquote :: str "a,b" ++ [dquote]] ∧
  tokenize (squote :: str "a,b" ++ [squote]) = Some [squote :: str "a"; [squote]] ∧
  tokenize (squote :: str "ab" ++ [squote]) = Some [[squote]].
Proof.
  split_and!; [|by vm_compute ..].
  apply tokenize_serialize_quoted.
Qed.

Lemma quoted_field_keeps_quotes_witness :
  (comma ∈ str "Smith, John" ∧ ¬ dquote ∈ str "Smith, John"
   ∧ ¬ backslash ∈ str "Smith, John") ∧
  tokenize (serialize [str "Smith, John"])
  = Some [dquote :: str "Smith, John" ++ [dquote]].
Proof.
  assert (comma ∈ str "Smith, John") as H1
    by (apply (bool_decide_unpack _); vm_compute; exact I).
  assert (dquote ∉ str "Smith, John") as H2
    by (apply (bool_decide_unpack _); vm_compute; exact I).
  assert (backslash ∉ str "Smith, John") as H3
    by (apply (bool_decide_unpack _); vm_compute; exact I).
  split; [by split_and!|].
  exact (proj1 quoted_field_keeps_quotes _ H1 H2 H3).
Defined.

(** C3: [writerow] appends to the output exactly the line of the
    specification: the fields in order, joined by single commas and followed
    by one line feed, a field being wrapped in double quotes if and only if
    it contains a comma. *)
Theorem writerow_contract output_file row :
  writerow output_file row = output_file ++ Spec.serialized row.
Proof.
  unfold writerow, serialize, Spec.serialized. f_equal.
  rewrite writerow_items_map, join_line_of. f_equal.
  apply list_fmap_ext. intros _ f _. apply rendered_spec.
Qed.

(** C4, as the specification states it, fails in its second sentence: after
    an opening double quote that is never closed, the text [a,b] that
    follows is not captured in a field, it is split at its comma; and a line
    that is only the quote gives no field at all. *)
Lemma unterminated_quote_counterexample :
  tokenize (dquote :: str "a,b") = Some [str "a"; str "b"] ∧
  tokenize [dquote] = Some [].
Proof. split; by vm_compute. Qed.

(** C4 (amended): the reader returns a sequence of fields for every line
    and never raises. A line that begins with a double quote that is never
    closed is read as the text after the quote: the quote is passed over
    and that text gives the fields it gives on its own. A line that begins
    with a single quote that is never closed, with no backslash after it,
    gives one field: the quote and all the text after it, commas
    included. *)
Theorem tokenize_never_raises :
  (∀ line, ∃ fields, tokenize line = Some fields) ∧
  (∀ t, dquote ∉ t → tokenize (dquote :: t) = tokenize t) ∧
  (∀ t, squote ∉ t → backslash ∉ t →
        tokenize (squote :: t) = Some [squote :: rstrip t]).
Proof.
  split_and!.
  - apply tokenize_total.
  - apply tokenize_open_dquote.
  - apply tokenize_open_squote.
Qed.

Lemma tokenize_never_raises_witness :
  (¬ dquote ∈ str "abc" ∧ tokenize (dquote :: str "abc") = Some [str "abc"]) ∧
  (¬ squote ∈ str "ab,c " ∧ ¬ backslash ∈ str "ab,c " ∧
   tokenize (squote :: str "ab,c ") = Some [squote :: str "ab,c"]).
Proof.
  destruct tokenize_never_raises as (_ & Hd & Hs).
  assert (dquote ∉ str "abc") as H1
    by (apply (bool_decide_unpack _); vm_compute; exact I).
  assert (squote ∉ str "ab,c ") as H2
    by (apply (bool_decide_unpack _); vm_compute; exact I).
  assert (backslash ∉ str "ab,c ") as H3
    by (apply (bool_decide_unpack _); vm_compute; exact I).
  split.
  - split; [exact H1|]. rewrite (Hd _ H1). reflexivity.
  - split; [exact H2|]. split; [exact H3|]. exact (Hs _ H2 H3).
Defined.

(** C5, as the specification states it, fails: the field index 0 names no
    column, yet [row[0 - 1]] is the last field and the run goes on to write
    the row. *)
Lemma index_zero_counterexample :
  py_getitem [str "5"; str "10.00"] (0 - 1) = Ok (str "10.00") ∧
  Example.main_loop 0 150 [[str "5"; str "10.00"]] Example.start
  = ({| locale := after_call "fr_FR" (locale Example.start);
        output_file := str "5," ++ dquote :: str "15,00" ++ [dquote; newline] |},
     Ok tt).
Proof. split; by vm_compute. Qed.

(** C5 (amended): when the field index is greater than the number of fields
    of a row, or at most the negated number of fields, the field access
    raises [IndexError]; the run ends there, with nothing written for that
    row nor for the rows after it. (An index from [1 - len] to 0 is not out
    of range for Python: it counts from the end of the row.) *)
Theorem index_out_of_range_aborts
    F fmul float_of_str available currency field multiplier pre row post p p' :
  (Z.of_nat (length row) < field ∨ field ≤ - Z.of_nat (length row))%Z →
  main_loop F fmul float_of_str available currency field multiplier pre p
    = (p', Ok tt) →
  py_getitem row (field - 1) = Raise IndexError ∧
  main_loop F fmul float_of_str available currency field multiplier
    (pre ++ row :: post) p
  = (p', Raise IndexError).
Proof.
  intros Hout Hpre. split.
  - apply py_getitem_out_of_range. lia.
  - rewrite main_loop_app, Hpre. cbn [main_loop].
    apply bind_raise. by apply loop_body_index_error.
Qed.

Lemma index_out_of_range_aborts_witness :
  (Z.of_nat (length [str "5"; str "10.00"]) < 3
   ∨ 3 ≤ - Z.of_nat (length [str "5"; str "10.00"]))%Z ∧
  Example.main_loop 3 150 [] Example.start = (Example.start, Ok tt) ∧
  py_getitem [str "5"; str "10.00"] (3 - 1) = Raise IndexError ∧
  Example.main_loop 3 150 ([] ++ [str "5"; str "10.00"] :: [[str "1"; str "10.00"]])
    Example.start
  = (Example.start, Raise IndexError).
Proof.
  assert ((Z.of_nat (length [str "5"; str "10.00"]) < 3
           ∨ 3 ≤ - Z.of_nat (length [str "5"; str "10.00"]))%Z) as H1
    by (left; simpl; lia).
  assert (Example.main_loop 3 150 [] Example.start = (Example.start, Ok tt))
    as H2 by reflexivity.
  split; [exact H1|]. split; [exact H2|].
  exact (index_out_of_range_aborts Z Example.fmul Example.float_of_str
           Example.available Example.currency 3%Z 150%Z []
           [str "5"; str "10.00"] [[str "1"; str "10.00"]]
           Example.start Example.start H1 H2).
Defined.

(** C6: for a field index from 1 to the number of fields of the row, whose
    field parses as a number, the loop body hands to the writer a row of the
    same length in which the field at that position is the monetary
    rendering of the number times the multiplier, and every other field is
    the one of the input row. *)
Theorem loop_body_replaces_one_field
    F fmul float_of_str available currency field multiplier row p
    fld value converted :
  (1 ≤ field ≤ Z.of_nat (length row))%Z →
  row !! Z.to_nat (field - 1) = Some fld →
  float_of_str fld = Some value →
  available "fr_FR"%string = true →
  available (categories (locale p) LC_CTYPE) = true →
  currency (during_call "fr_FR" (locale p)) (fmul value multiplier)
    false true true = Some converted →
  ∃ row',
    loop_body F fmul float_of_str available currency field multiplier row p
    = ({| locale := after_call "fr_FR" (locale p);
          output_file := output_file p ++ serialize row' |}, Ok tt) ∧
    length row' = length row ∧
    row' !! Z.to_nat (field - 1) = Some converted ∧
    ∀ j, j ≠ Z.to_nat (field - 1) → row' !! j = row !! j.
Proof.
  intros Hk Hfld Hval Hloc Horig Hfmt.
  exists (<[Z.to_nat (field - 1) := converted]> row).
  assert (py_index (length row) (field - 1) = Some (Z.to_nat (field - 1)))
    as Hidx by (apply py_index_in_range; lia).
  split_and!.
  - unfold loop_body.
    rewrite (bind_ok _ _ p p fld).
    2: { unfold lift, py_getitem. by rewrite Hidx, Hfld. }
    rewrite (bind_ok _ _ p p value).
    2: { unfold float. by rewrite Hval. }
    rewrite (bind_ok _ _ p {| locale := after_call "fr_FR" (locale p);
                              output_file := output_file p |} converted).
    2: { unfold in_locale.
         by rewrite (convert_currency_returns F fmul available currency value
                       multiplier "fr_FR" false (locale p) converted
                       Hloc Horig Hfmt). }
    erewrite bind_ok.
    2: { unfold lift, py_setitem. by rewrite Hidx. }
    reflexivity.
  - apply length_insert.
  - apply list_lookup_insert_eq. lia.
  - intros j Hj. by apply list_lookup_insert_ne.
Qed.

Lemma loop_body_replaces_one_field_witness :
  ∃ row',
    Example.loop_body 2 150 [str "5"; str "10.00"] Example.start
    = ({| locale := after_call "fr_FR" (locale Example.start);
          output_file := output_file Example.start ++ serialize row' |}, Ok tt) ∧
    length row' = length [str "5"; str "10.00"] ∧
    row' !! Z.to_nat (2 - 1) = Some (str "15,00") ∧
    ∀ j, j ≠ Z.to_nat (2 - 1) → row' !! j = [str "5"; str "10.00"] !! j.
Proof.
  apply (loop_body_replaces_one_field Z Example.fmul Example.float_of_str
           Example.available Example.currency 2%Z 150%Z [str "5"; str "10.00"]
           Example.start (str "10.00") 1000%Z (str "15,00")).
  - simpl. lia.
  - reflexivity.
  - reflexivity.
  - reflexivity.
  - reflexivity.
  - reflexivity.
Defined.

(** C7: whitespace before a field is not consumed outside the capture: the
    pattern opens with the letter s where the whitespace class was meant, so
    the whitespace before an unquoted field is returned as part of the
    field. Whitespace after a field is consumed outside it. The line [a, b]
    gives the second field with its space; the line [a ,b] gives [a] and
    [b]. *)
Theorem leading_whitespace_is_captured :
  (∀ w body rest,
     w ≠ [] → Forall (λ c, isspace c = true) w → plain body →
     tokenize (w ++ body ++ comma :: rest)
     = cons (w ++ body) <$> tokenize rest) ∧
  (∀ body w rest,
     plain body → head body ≠ Some "s"%char →
     Forall (λ c, isspace c = true) w →
     tokenize (body ++ w ++ comma :: rest) = cons body <$> tokenize rest) ∧
  tokenize (str "a, b") = Some [str "a"; str " b"] ∧
  tokenize (str "a ,b") = Some [str "a"; str "b"].
Proof.
  split_and!; [| |by vm_compute ..].
  - apply tokenize_leading_space.
  - apply tokenize_trailing_space.
Qed.

Lemma leading_whitespace_is_captured_witness :
  (str " " ≠ [] ∧ Forall (λ c, isspace c = true) (str " ") ∧ plain (str "b")
   ∧ head (str "b") ≠ Some "s"%char) ∧
  tokenize (str " b,c") = Some [str " b"; str "c"] ∧
  tokenize (str "b ,c") = Some [str "b"; str "c"].
Proof.
  assert (str " " ≠ []) as H1 by (vm_compute; discriminate).
  assert (Forall (λ c, isspace c = true) (str " ")) as H2
    by (repeat constructor).
  assert (plain (str "b") ∧ head (str "b") ≠ Some "s"%char) as [H3 H4]
    by unquoted_field.
  destruct leading_whitespace_is_captured as (Hlead & Htrail & _).
  split; [by split_and!|]. split.
  - etrans; [exact (Hlead (str " ") (str "b") (str "c") H1 H2 H3) | reflexivity].
  - etrans; [exact (Htrail (str "b") (str " ") (str "c") H3 H4 H2) | reflexivity].
Defined.

(** C8, as the specification states it, fails: after a call that returns,
    the two override entries are still installed. *)
Lemma convert_currency_counterexample :
  let st := locale Example.start in
  let result := Example.convert_currency 1000 150 "fr_FR" false st in
  result.2 = Ok (str "15,00") ∧
  override_localeconv st !! "p_cs_precedes"%string = None ∧
  override_localeconv st !! "n_cs_precedes"%string = None ∧
  override_localeconv result.1 !! "p_cs_precedes"%string = Some 1%Z ∧
  override_localeconv result.1 !! "n_cs_precedes"%string = Some 1%Z.
Proof. split_and!; by vm_compute. Qed.

(** C8 (amended): after a call that returns, every locale category other
    than [LC_MONETARY] is as before, and so is [LC_MONETARY] when it was
    the locale that [getlocale()] reports at entry; the override entries
    [p_cs_precedes] and [n_cs_precedes] stay installed with the value 1, the
    other entries being as before. *)
Theorem convert_currency_locale_effect
    F fmul available currency value multiplier loc sym st st' converted :
  convert_currency F fmul available currency value multiplier loc sym st
    = (st', Ok converted) →
  (∀ cat, cat ≠ LC_MONETARY → categories st' cat = categories st cat) ∧
  (categories st LC_MONETARY = categories st LC_CTYPE →
   ∀ cat, categories st' cat = categories st cat) ∧
  override_localeconv st' !! "p_cs_precedes"%string = Some 1%Z ∧
  override_localeconv st' !! "n_cs_precedes"%string = Some 1%Z ∧
  (∀ key, key ≠ "p_cs_precedes"%string → key ≠ "n_cs_precedes"%string →
          override_localeconv st' !! key = override_localeconv st !! key).
Proof.
  intros [-> _]%convert_currency_inv. simpl. split_and!.
  - intros cat Hcat. by rewrite !decide_False.
  - intros Heq cat. destruct (decide (cat = LC_MONETARY)) as [->|]; done.
  - by rewrite lookup_insert_ne, lookup_insert_eq.
  - by rewrite lookup_insert_eq.
  - intros key Hp Hn. by rewrite !lookup_insert_ne.
Qed.

Lemma convert_currency_locale_effect_witness :
  let st := locale Example.start in
  let st' := after_call "fr_FR" st in
  Example.convert_currency 1000 150 "fr_FR" false st = (st', Ok (str "15,00")) ∧
  categories st LC_MONETARY = categories st LC_CTYPE ∧
  (∀ cat, categories st' cat = categories st cat) ∧
  override_localeconv st' !! "p_cs_precedes"%string = Some 1%Z.
Proof.
  intros st st'.
  assert (Example.convert_currency 1000 150 "fr_FR" false st
          = (st', Ok (str "15,00"))) as H by reflexivity.
  assert (categories st LC_MONETARY = categories st LC_CTYPE) as Heq
    by reflexivity.
  destruct (convert_currency_locale_effect Z Example.fmul Example.available
              Example.currency 1000%Z 150%Z "fr_FR" false st st'
              (str "15,00") H) as (_ & Hcat & Hp & _).
  split; [exact H|]. split; [exact Heq|]. split; [exact (Hcat Heq) | exact Hp].
Defined.

(** C9: the pattern opens with the letter s where the whitespace class was
    meant, and the reader drops a run of s that stands before an unquoted
    field: [say] comes back as [ay]. On a field made of the letter s only
    the run is not removed as the claim has it: the group needs a
    character, the greedy run gives its last s back, and [ss] comes back as
    [s]. In general: a field whose text goes on after the run with another
    character is returned without the run, the rest of the line being read
    on its own, and a field made of the letter s only is returned as a
    single s. *)
Theorem leading_s_run_dropped n :
  (∀ body, plain body → head body ≠ Some "s"%char →
     tokenize (replicate n "s"%char ++ body) = Some [body] ∧
     ∀ rest, tokenize (replicate n "s"%char ++ body ++ comma :: rest)
             = cons body <$> tokenize rest) ∧
  tokenize (replicate (S n) "s"%char) = Some [["s"%char]] ∧
  (∀ rest, tokenize (replicate (S n) "s"%char ++ comma :: rest)
           = cons ["s"%char] <$> tokenize rest) ∧
  tokenize (str "ss") = Some [str "s"] ∧
  tokenize (str "sss,ab") = Some [str "s"; str "ab"] ∧
  tokenize (str "say") = Some [str "ay"].
Proof.
  split_and!; [| | |by vm_compute ..].
  - intros body Hb Hh. split.
    + by apply tokenize_plain_last.
    + intros rest. by apply tokenize_plain.
  - apply tokenize_all_s_last.
  - apply tokenize_all_s.
Qed.

Lemma leading_s_run_dropped_witness :
  (plain (str "ay") ∧ head (str "ay") ≠ Some "s"%char) ∧
  tokenize (str "ssay") = Some [str "ay"] ∧
  tokenize (str "ssay,sb") = Some [str "ay"; str "b"].
Proof.
  assert (plain (str "ay") ∧ head (str "ay") ≠ Some "s"%char) as H
    by unquoted_field.
  destruct H as [Hp Hh].
  destruct (leading_s_run_dropped 2) as (Hbody & _).
  destruct (Hbody (str "ay") Hp Hh) as [Hlast Hrest].
  split; [by split|]. split; [exact Hlast|].
  etrans; [exact (Hrest (str "sb")) | reflexivity].
Defined.

(** C10: every field the reader returns has at least one character, so the
    text between two commas, before a leading comma or after a trailing one
    gives no field, and an empty line gives no field at all. *)
Theorem no_empty_fields :
  (∀ line, ∃ fields, tokenize line = Some fields ∧ Forall (λ f, f ≠ []) fields) ∧
  tokenize [] = Some [] ∧
  tokenize (str "a,,b") = Some [str "a"; str "b"] ∧
  tokenize (str ",a") = Some [str "a"] ∧
  tokenize (str "a,") = Some [str "a"].
Proof.
  split_and!; [|by vm_compute ..].
  intros line. destruct (tokenize_total line) as [fields H].
  exists fields. split; [done | by eapply tokenize_nonempty].
Qed.

(** ** Further properties of the reader *)

Module ReaderShape.
Import Regex RegexFacts ClassLoops Csv CsvFacts ReaderFacts.

(** The number of commas of a text. *)
Definition commas (s : text) : nat :=
  length (filter (λ c, c = comma) s).

Lemma commas_app a b : commas (a ++ b) = commas a + commas b.
Proof. unfold commas. by rewrite filter_app, length_app. Qed.

Lemma commas_cons_comma s : commas (comma :: s) = S (commas s).
Proof. unfold commas. by rewrite filter_cons_True. Qed.

Lemma rstrip_prefix s : ∃ w, s = rstrip s ++ w.
Proof.
  induction s as [|c s [w IH]]; [by exists []|]. simpl.
  destruct (rstrip s) as [|d t] eqn:E.
  - destruct (isspace c); [by exists (c :: s)|].
    exists s. simpl. done.
  - exists w. simpl. by rewrite IH at 1.
Qed.

Lemma commas_rstrip s : commas (rstrip s) ≤ commas s.
Proof.
  destruct (rstrip_prefix s) as [w Hw]. rewrite Hw at 2.
  rewrite commas_app. lia.
Qed.

(** A text that [rstrip] leaves alone: empty, or ending in a character
    that is not whitespace. *)
Definition stripped (s : text) : Prop := rstrip s = s.

Lemma stripped_rstrip s : stripped (rstrip s).
Proof.
  unfold stripped. induction s as [|c s IH]; simpl; [done|].
  destruct (rstrip s) as [|d t] eqn:E.
  - destruct (isspace c) eqn:Hc; simpl; by rewrite ?Hc.
  - change (rstrip (c :: d :: t)) with
      (match rstrip (d :: t) with
       | [] => if isspace c then [] else [c]
       | t' => c :: t' end).
    by rewrite IH.
Qed.

Lemma stripped_suffix a b : stripped (a ++ b) → stripped b.
Proof.
  unfold stripped. intros H.
  destruct (rstrip b) as [|d t] eqn:E.
  - apply rstrip_nil_iff in E.
    rewrite rstrip_app_space in H by done.
    destruct (rstrip_prefix a) as [w Hw].
    rewrite H in Hw. apply (f_equal length) in Hw.
    rewrite !length_app in Hw.
    destruct b; [done | simpl in Hw; lia].
  - rewrite rstrip_app_r in H by (by rewrite E).
    apply app_inv_head in H. by rewrite <- E.
Qed.

Lemma stripped_not_newline : ¬ stripped [newline].
Proof. by vm_compute. Qed.

Lemma re_search_suffix r s s0 x :
  re_search r s = Some (s0, x) → ∃ pre, s = pre ++ s0.
Proof.
  induction s as [|c s IH]; simpl.
  - destruct (re_match r []); [|done]. intros [= <- _]. by exists [].
  - destruct (re_match r (c :: s)).
    + intros [= <- _]. by exists [].
    + intros [pre ->]%IH. by exists (c :: pre).
Qed.

(** How a field ends: whitespace, then a comma, or the end of the line. *)
Lemma field_end_shape e s e' s' :
  matches field_end e s e' s' →
  ∃ ws, Forall (λ c, isspace c = true) ws ∧
        (s = ws ++ comma :: s' ∨ (s = ws ++ s' ∧ at_eol s' = true)).
Proof.
  intros (e1 & s1 & (-> & w & -> & Hw)%matches_star_chr & Halt)%matches_cat_inv.
  exists w. split; [done|].
  apply matches_alt_inv in Halt as [Hc|He].
  - apply matches_chr_inv in Hc as (c & -> & ->%is_char_spec & _). by left.
  - apply matches_eol_inv in He as (-> & _ & He). by right.
Qed.

(** The three shapes of a returned field. *)
Definition field_shape (f : text) : Prop :=
  (f ≠ [] ∧ Forall (λ c, plain_char c = true) f) ∨
  (∃ b, f = dquote :: b ++ [dquote]) ∨
  (∃ b, f = squote :: b).

Lemma field_consumed e s e' s' :
  matches field e s e' s' → ∃ w, s = w ++ s' ∧ field_shape w.
Proof.
  intros [H|[H|H]%matches_alt_inv]%matches_alt_inv;
    apply matches_cat_inv in H as (e1 & s1 & Hc & H);
    apply matches_chr_inv in Hc as (c & -> & Hc & ->).
  - apply matches_star_chr in H as (_ & w & -> & Hw).
    exists (c :: w). split; [done|]. left. split; [done | by constructor].
  - apply is_char_spec in Hc as ->.
    apply matches_cat_inv in H as (e2 & s2 & [w ->]%matches_suffix & Hq).
    apply matches_chr_inv in Hq as (c & -> & ->%is_char_spec & _).
    exists (dquote :: w ++ [dquote]). split.
    + simpl. by rewrite <- app_assoc.
    + right; left. by exists w.
  - apply is_char_spec in Hc as ->.
    apply matches_suffix in H as [w ->].
    exists (squote :: w). split; [done|]. right; right. by exists w.
Qed.

(** Every match: the text before it that the pattern skipped over (a run
    of the letter s), the field, whitespace, and a comma or the end. *)
Lemma re_match_csv_shape s e s' :
  re_match csv_re s = Some (e, s') →
  ∃ cap ws,
    e = Some cap ∧ field_shape cap ∧ length s' < length s ∧
    Forall (λ c, isspace c = true) ws ∧
    ∃ pre, (s = pre ++ comma :: s') ∨ (s = pre ++ s' ∧ at_eol s' = true).
Proof.
  intros (w & s1 & s2 & -> & _ & (e1 & e2 & Hf) & -> & e3 & Hend)
    %re_match_sound%csv_re_inv.
  pose proof (matches_min_len _ _ _ _ _ Hf) as Hmin.
  rewrite min_len_field in Hmin.
  apply field_consumed in Hf as (cap & -> & Hshape).
  pose proof (matches_length _ _ _ _ _ Hend) as Hlen.
  apply field_end_shape in Hend as (ws & Hws & Hcase).
  exists cap, ws. rewrite take_consumed.
  split_and!; [done | done | | done |].
  - rewrite !length_app in *. lia.
  - exists (w ++ cap ++ ws).
    destruct Hcase as [->|[-> He]]; [left | right]; by rewrite <- !app_assoc.
Qed.

Lemma findall_from_Forall (P : text → Prop) :
  (∀ s e s', re_match csv_re s = Some (e, s') →
             ∃ cap, e = Some cap ∧ P cap ∧ length s' < length s) →
  ∀ fuel s l, findall_from fuel csv_re s = Some l → Forall P l.
Proof.
  intros HP. induction fuel as [|fuel IH]; intros s l; simpl; [done|].
  destruct (re_search csv_re s) as [[s0 [e s1]]|] eqn:E.
  2: { intros [= <-]. constructor. }
  apply re_search_sound in E as [E _].
  apply HP in E as (cap & -> & Hcap & Hlt).
  rewrite (proj2 (Nat.ltb_lt _ _) Hlt). simpl.
  intros (l' & Hl' & ->)%fmap_Some. constructor; [done | by eapply IH].
Qed.

Lemma findall_from_count : ∀ fuel s l,
  stripped s → findall_from fuel csv_re s = Some l →
  length l ≤ S (commas s).
Proof.
  induction fuel as [|fuel IH]; intros s l Hs; simpl; [done|].
  destruct (re_search csv_re s) as [[s0 [e s1]]|] eqn:E.
  2: { intros [= <-]. simpl. lia. }
  pose proof (re_search_suffix _ _ _ _ E) as [pre ->].
  apply stripped_suffix in Hs as Hs0.
  apply re_search_sound in E as [E _].
  apply re_match_csv_shape in E as (cap & ws & -> & _ & Hlt & _ & Hcase).
  rewrite (proj2 (Nat.ltb_lt _ _) Hlt). simpl.
  intros (l' & Hl' & ->)%fmap_Some. simpl.
  destruct Hcase as [pre' [->| [-> He]]].
  - rewrite (app_assoc pre pre'), commas_app, commas_cons_comma.
    rewrite (cons_middle comma), app_assoc in Hs0.
    apply stripped_suffix in Hs0.
    specialize (IH s1 l' Hs0 Hl'). lia.
  - apply stripped_suffix in Hs0.
    assert (s1 = []) as ->.
    { destruct s1 as [|c [|]]; simpl in He; try done.
      apply Ascii.eqb_eq in He as ->. by apply stripped_not_newline in Hs0. }
    destruct fuel; [done|]. injection Hl' as <-. simpl. lia.
Qed.

End ReaderShape.

(** ** Further properties of the reader and the writer *)

Import ReaderShape.

(** X1: [writerows] appends, for each row in order, the line of the
    specification for that row; the rows are rendered independently. *)
Theorem writerows_lines output_file data :
  writerows output_file data
  = output_file ++ concat (Spec.serialized <$> data).
Proof.
  unfold writerows. revert output_file.
  induction data as [|row data IH]; intros output_file.
  - by rewrite app_nil_r.
  - cbn [foldl]. rewrite IH. unfold writerow at 1.
    rewrite fmap_cons, <- app_assoc. simpl. do 2 f_equal.
    unfold serialize, Spec.serialized.
    rewrite writerow_items_map, join_line_of. f_equal.
    apply list_fmap_ext. intros _ f _. apply rendered_spec.
Qed.

(** X2: whitespace at the end of a line, the line terminator included, has
    no effect on what the reader returns for the line. *)
Theorem tokenize_ignores_trailing_whitespace line ws :
  Forall (λ c, isspace c = true) ws → tokenize (line ++ ws) = tokenize line.
Proof. intros Hws. unfold tokenize. by rewrite rstrip_app_space. Qed.

Lemma tokenize_ignores_trailing_whitespace_witness :
  Forall (λ c, isspace c = true) ["013"%char; newline] ∧
  tokenize (str "5,10.00" ++ ["013"%char; newline]) = tokenize (str "5,10.00").
Proof.
  assert (Forall (λ c, isspace c = true) ["013"%char; newline]) as H
    by (repeat constructor).
  split; [exact H|].
  exact (tokenize_ignores_trailing_whitespace (str "5,10.00") _ H).
Defined.

(** X3: a line of whitespace only (a blank line, a bare line terminator)
    gives the empty record. *)
Theorem tokenize_blank_line line :
  Forall (λ c, isspace c = true) line → tokenize line = Some [].
Proof.
  intros H. unfold tokenize.
  by rewrite (proj2 (rstrip_nil_iff line) H).
Qed.

Lemma tokenize_blank_line_witness :
  Forall (λ c, isspace c = true) (str "  " ++ [newline]) ∧
  tokenize (str "  " ++ [newline]) = Some [].
Proof.
  assert (Forall (λ c, isspace c = true) (str "  " ++ [newline])) as H
    by (repeat constructor).
  split; [exact H | exact (tokenize_blank_line _ H)].
Defined.

(** X4: every field the reader returns has one of three shapes: characters
    other than the comma and the two quotes; a span that begins and ends
    with a double quote; or a text that begins with a single quote. So a
    returned field has a comma in it only if it begins with a quote. *)
Theorem tokenize_field_shapes line :
  ∃ fields,
    tokenize line = Some fields ∧
    Forall field_shape fields ∧
    ∀ f, f ∈ fields → comma ∈ f →
         head f = Some dquote ∨ head f = Some squote.
Proof.
  destruct (tokenize_total line) as [fields H]. exists fields.
  assert (Forall field_shape fields) as Hshape.
  { eapply (findall_from_Forall field_shape); [|exact H].
    intros s e s' (cap & ws & -> & Hc & Hlt & _)%re_match_csv_shape.
    by exists cap. }
  split; [done|]. split; [done|].
  intros f Hf Hcomma. rewrite Forall_forall in Hshape.
  destruct (Hshape f Hf) as [[_ Hplain]|[[b ->]|[b ->]]]; [|by left|by right].
  rewrite Forall_forall in Hplain. by apply Hplain, plain_not_comma in Hcomma.
Qed.

(** X5: the reader returns at most one field more than the line has
    commas. *)
Theorem tokenize_field_count line :
  ∃ fields, tokenize line = Some fields ∧ length fields ≤ S (commas line).
Proof.
  destruct (tokenize_total line) as [fields H]. exists fields.
  split; [done|].
  pose proof (findall_from_count _ _ _ (stripped_rstrip line) H) as Hc.
  pose proof (commas_rstrip line). lia.
Qed.

(** X6: [NaiveCSV.reader] returns one record per line of the input, in the
    order of the lines; a blank line is not skipped, it gives an empty
    record. *)
Theorem reader_one_record_per_line input_file :
  ∃ csv_data,
    reader input_file = Some csv_data ∧
    length csv_data = length input_file ∧
    (∀ i line, input_file !! i = Some line →
       ∃ fields, csv_data !! i = Some fields ∧ tokenize line = Some fields) ∧
    (∀ i line, input_file !! i = Some line →
       Forall (λ c, isspace c = true) line → csv_data !! i = Some []).
Proof.
  assert (is_Some (reader input_file)) as [csv_data H].
  { apply mapM_is_Some_2, Forall_forall. intros line _.
    destruct (tokenize_total line) as [fields Hf].
    unfold compose. rewrite Hf. by eexists. }
  exists csv_data. split; [done|].
  apply mapM_Some_1 in H.
  assert (∀ i line, input_file !! i = Some line →
            ∃ fields, csv_data !! i = Some fields ∧ tokenize line = Some fields)
    as Hrows.
  { intros i line Hi.
    destruct (Forall2_lookup_l _ _ _ _ _ H Hi) as (fields & ? & ?).
    by exists fields. }
  split_and!.
  - symmetry. by eapply Forall2_length.
  - done.
  - intros i line Hi Hblank.
    destruct (Hrows i line Hi) as (fields & Hf & Ht).
    pose proof (tokenize_blank_line line Hblank). congruence.
Qed.

(** X7: a quoted field does not survive a pass through the reader and the
    writer: for a field with a comma, the record read from the line that
    [writerow] wrote is written back with a second pair of quotes. *)
Theorem quotes_double_on_rewrite f :
  comma ∈ f → dquote ∉ f → backslash ∉ f →
  ∃ row,
    tokenize (serialize [f]) = Some row ∧
    serialize row = dquote :: dquote :: f ++ [dquote; dquote; newline].
Proof.
  intros Hc Hq Hb. exists [dquote :: f ++ [dquote]].
  split; [by apply tokenize_serialize_quoted|].
  unfold serialize. rewrite writerow_items_map.
  cbn [fmap list_fmap join]. unfold rendered.
  rewrite (proj2 (has_comma_spec _)).
  - simpl. by rewrite <- !app_assoc.
  - right. apply elem_of_app. by left.
Qed.

Lemma quotes_double_on_rewrite_witness :
  (comma ∈ str "15,00" ∧ ¬ dquote ∈ str "15,00" ∧ ¬ backslash ∈ str "15,00") ∧
  ∃ row,
    tokenize (serialize [str "15,00"]) = Some row ∧
    serialize row
    = dquote :: dquote :: str "15,00" ++ [dquote; dquote; newline].
Proof.
  assert (comma ∈ str "15,00") as H1
    by (apply (bool_decide_unpack _); vm_compute; exact I).
  assert (dquote ∉ str "15,00") as H2
    by (apply (bool_decide_unpack _); vm_compute; exact I).
  assert (backslash ∉ str "15,00") as H3
    by (apply (bool_decide_unpack _); vm_compute; exact I).
  split; [by split_and!|].
  exact (quotes_double_on_rewrite _ H1 H2 H3).
Defined.

(** ** The run of [main] with the naive reader and writer *)

Module Run.
Import Csv Locale Program.

Section Platform.
Variable F : Type.
Variable fmul : F → F → F.
Variable float_of_str : text → option F.
Variable available : string → bool.
Variable currency : Locale.state → F → bool → bool → bool → option text.

(** [main], lines 161-169, without [--sane-csv]: [csv.reader(args.i)] reads
    the whole input, then the loop runs over the records. [None] only
    stands for a reader whose loop budget ran out. *)
Definition main_naive (field : Z) (multiplier : F) (input_file : list text)
    : process → option (process * result unit) :=
  λ p, match reader input_file with
       | Some csvreader =>
           Some (main_loop F fmul float_of_str available currency
                   field multiplier csvreader p)
       | None => None
       end.

End Platform.

End Run.

Module RunFacts.
Import Regex Csv CsvFacts ReaderFacts Locale Program ProgramFacts Run.

Lemma reader_app a b ra rb :
  reader a = Some ra → reader b = Some rb → reader (a ++ b) = Some (ra ++ rb).
Proof.
  intros Ha%mapM_Some_1 Hb%mapM_Some_1.
  by apply mapM_Some_2, Forall2_app.
Qed.

Lemma reader_total input_file : ∃ csv_data, reader input_file = Some csv_data.
Proof.
  assert (is_Some (reader input_file)) as [csv_data H]; [|by exists csv_data].
  apply mapM_is_Some_2, Forall_forall. intros line _.
  destruct (tokenize_total line) as [fields Hf].
  unfold compose. rewrite Hf. by eexists.
Qed.

Lemma tokenize_join_line r :
  Forall returned_as_is r → tokenize (join [comma] r ++ [newline]) = Some r.
Proof.
  intros Hr. unfold tokenize.
  rewrite rstrip_app_space by (by repeat constructor).
  destruct r as [|f r]; [done|].
  destruct (join_last (f :: r) Hr) as (z & Hz & Hs); [done|].
  rewrite (rstrip_last _ z) by done.
  by apply findall_join.
Qed.

(** An index from [-n] to [-1] and the index [n] places higher name the
    same position. *)
Lemma py_index_shift n i :
  (- Z.of_nat n ≤ i < 0)%Z → py_index n i = py_index n (i + Z.of_nat n).
Proof.
  intros H. rewrite py_index_wraps by done.
  rewrite py_index_in_range by lia. f_equal. lia.
Qed.

Section Platform.
Variable F : Type.
Variable fmul : F → F → F.
Variable float_of_str : text → option F.
Variable available : string → bool.
Variable currency : Locale.state → F → bool → bool → bool → option text.

Abbreviation convert_currency' := (convert_currency F fmul available currency).
Abbreviation loop_body' := (loop_body F fmul float_of_str available currency).
Abbreviation main_loop' := (main_loop F fmul float_of_str available currency).
Abbreviation main_naive' :=
  (main_naive F fmul float_of_str available currency).

(** What one turn of the loop can do to the output file: add the line of
    a row of the same length, or nothing when it raises. *)
Lemma loop_body_outcome field multiplier row p p' r :
  loop_body' field multiplier row p = (p', r) →
  match r with
  | Ok _ => ∃ row', length row' = length row ∧
                    output_file p' = output_file p ++ serialize row'
  | Raise _ => output_file p' = output_file p
  end.
Proof.
  unfold loop_body, bind, lift, float, in_locale, csvwriter_writerow,
    py_setitem, ret, raise.
  destruct (py_getitem row (field - 1)) as [fld|e]; [|by intros [= <- <-]].
  destruct (float_of_str fld) as [value|]; [|by intros [= <- <-]].
  destruct (convert_currency' value multiplier "fr_FR" false (locale p))
    as [st [converted|e]]; [|by intros [= <- <-]].
  destruct (py_index (length row) (field - 1)) as [j|]; [|by intros [= <- <-]].
  intros [= <- <-]. eexists. split; [apply length_insert | done].
Qed.

Lemma main_loop_raise field multiplier pre row post p p1 p2 e :
  main_loop' field multiplier pre p = (p1, Ok tt) →
  loop_body' field multiplier row p1 = (p2, Raise e) →
  main_loop' field multiplier (pre ++ row :: post) p = (p2, Raise e).
Proof.
  intros Hpre Hrow.
  rewrite (main_loop_app F fmul float_of_str available currency), Hpre.
  cbn [main_loop]. by apply bind_raise.
Qed.

End Platform.

End RunFacts.

(** ** Further properties of the loop of [main] and of [convert_currency] *)

Import Run RunFacts.

(** X8: the first exception ends the run. When the rows before a row were
    processed and the row raises, the run raises that exception; the rows
    after it are not looked at, and the output file holds what the rows
    before it wrote and nothing more. *)
Theorem first_exception_ends_run
    F fmul float_of_str available currency field multiplier
    pre row post p p1 p2 e :
  main_loop F fmul float_of_str available currency field multiplier pre p
    = (p1, Ok tt) →
  loop_body F fmul float_of_str available currency field multiplier row p1
    = (p2, Raise e) →
  main_loop F fmul float_of_str available currency field multiplier
    (pre ++ row :: post) p = (p2, Raise e) ∧
  output_file p2 = output_file p1.
Proof.
  intros Hpre Hrow. split.
  - eapply main_loop_raise; eassumption.
  - exact (loop_body_outcome _ _ _ _ _ _ _ _ _ _ _ Hrow).
Qed.

Lemma first_exception_ends_run_witness :
  Example.main_loop 2 150 [] Example.start = (Example.start, Ok tt) ∧
  Example.loop_body 2 150 [str "5"; str "abc"] Example.start
    = (Example.start, Raise ValueError) ∧
  Example.main_loop 2 150 ([] ++ [str "5"; str "abc"] :: [[str "1"; str "10.00"]])
    Example.start = (Example.start, Raise ValueError) ∧
  output_file Example.start = output_file Example.start.
Proof.
  assert (Example.main_loop 2 150 [] Example.start = (Example.start, Ok tt))
    as H1 by reflexivity.
  assert (Example.loop_body 2 150 [str "5"; str "abc"] Example.start
          = (Example.start, Raise ValueError)) as H2 by reflexivity.
  split; [exact H1|]. split; [exact H2|].
  exact (first_exception_ends_run Z Example.fmul Example.float_of_str
           Example.available Example.currency 2%Z 150%Z []
           [str "5"; str "abc"] [[str "1"; str "10.00"]]
           Example.start Example.start Example.start ValueError H1 H2).
Defined.

(** X9: when the selected field does not parse as a number, the turn of
    the loop raises [ValueError] before the locale is touched and before
    anything is written. *)
Theorem non_numeric_field_raises
    F fmul float_of_str available currency field multiplier row p fld :
  py_getitem row (field - 1) = Ok fld →
  float_of_str fld = None →
  loop_body F fmul float_of_str available currency field multiplier row p
  = (p, Raise ValueError).
Proof.
  intros Hget Hval. unfold loop_body.
  rewrite (bind_ok _ _ p p fld) by (unfold lift; by rewrite Hget).
  apply bind_raise. unfold float. by rewrite Hval.
Qed.

Lemma non_numeric_field_raises_witness :
  py_getitem [str "5"; str "abc"] (2 - 1) = Ok (str "abc") ∧
  Example.float_of_str (str "abc") = None ∧
  Example.loop_body 2 150 [str "5"; str "abc"] Example.start
  = (Example.start, Raise ValueError).
Proof.
  assert (py_getitem [str "5"; str "abc"] (2 - 1) = Ok (str "abc")) as H1
    by reflexivity.
  assert (Example.float_of_str (str "abc") = None) as H2 by reflexivity.
  split; [exact H1|]. split; [exact H2|].
  exact (non_numeric_field_raises Z Example.fmul Example.float_of_str
           Example.available Example.currency 2%Z 150%Z
           [str "5"; str "abc"] Example.start (str "abc") H1 H2).
Defined.

(** X10: the output file only grows: whether the run returns or raises,
    what was in the output file at the start is still its beginning, so the
    lines written before a failure are not taken back. *)
Theorem output_only_grows
    F fmul float_of_str available currency field multiplier csvreader p p' r :
  main_loop F fmul float_of_str available currency field multiplier
    csvreader p = (p', r) →
  ∃ written, output_file p' = output_file p ++ written.
Proof.
  revert p. induction csvreader as [|row rest IH]; intros p.
  - intros [= <- <-]. exists []. by rewrite app_nil_r.
  - cbn [main_loop]. unfold bind at 1.
    destruct (loop_body F fmul float_of_str available currency
                field multiplier row p) as [p1 [[]|e]] eqn:Hrow.
    + intros [written Hw]%IH.
      destruct (loop_body_outcome _ _ _ _ _ _ _ _ _ _ _ Hrow)
        as (row' & _ & Hout).
      exists (serialize row' ++ written). by rewrite Hw, Hout, app_assoc.
    + intros [= <- <-]. exists [].
      rewrite (loop_body_outcome _ _ _ _ _ _ _ _ _ _ _ Hrow).
      by rewrite app_nil_r.
Qed.

Lemma output_only_grows_witness :
  let p' := {| locale := after_call "fr_FR" (locale Example.start);
               output_file := str "5," ++ dquote :: str "15,00"
                              ++ [dquote; newline] |} in
  Example.main_loop 2 150 [[str "5"; str "10.00"]; [str "7"]] Example.start
    = (p', Raise IndexError) ∧
  ∃ written, output_file p' = output_file Example.start ++ written.
Proof.
  intros p'.
  assert (Example.main_loop 2 150 [[str "5"; str "10.00"]; [str "7"]]
            Example.start = (p', Raise IndexError)) as H by (by vm_compute).
  split; [exact H|].
  exact (output_only_grows Z Example.fmul Example.float_of_str
           Example.available Example.currency 2%Z 150%Z _ _ _ _ H).
Defined.

(** X11: a run that returns has written exactly one line per record, in
    order, each the line of a row with as many fields as the record: the
    output is what [writerows] gives for those rows. *)
Theorem run_writes_one_line_per_record
    F fmul float_of_str available currency field multiplier csvreader p p' :
  main_loop F fmul float_of_str available currency field multiplier
    csvreader p = (p', Ok tt) →
  ∃ rows,
    Forall2 (λ record row, length row = length record) csvreader rows ∧
    output_file p' = writerows (output_file p) rows.
Proof.
  revert p. induction csvreader as [|record rest IH]; intros p.
  - intros [= <-]. exists []. split; [constructor | done].
  - cbn [main_loop]. unfold bind at 1.
    destruct (loop_body F fmul float_of_str available currency
                field multiplier record p) as [p1 [[]|e]] eqn:Hrow; [|done].
    intros (rows & Hrows & Hout)%IH.
    destruct (loop_body_outcome _ _ _ _ _ _ _ _ _ _ _ Hrow)
      as (row & Hlen & Hout1).
    exists (row :: rows). split; [by constructor|].
    rewrite Hout, Hout1. reflexivity.
Qed.

Lemma run_writes_one_line_per_record_witness :
  let p' := {| locale := after_call "fr_FR" (locale Example.start);
               output_file := str "5," ++ dquote :: str "15,00"
                              ++ [dquote; newline] |} in
  Example.main_loop 2 150 [[str "5"; str "10.00"]] Example.start
    = (p', Ok tt) ∧
  ∃ rows,
    Forall2 (λ record row, length row = length record)
      [[str "5"; str "10.00"]] rows ∧
    output_file p' = writerows (output_file Example.start) rows.
Proof.
  intros p'.
  assert (Example.main_loop 2 150 [[str "5"; str "10.00"]] Example.start
          = (p', Ok tt)) as H by (by vm_compute).
  split; [exact H|].
  exact (run_writes_one_line_per_record Z Example.fmul Example.float_of_str
           Example.available Example.currency 2%Z 150%Z _ _ _ H).
Defined.

(** X12: a field index from [1 - n] to 0, for a row of [n] fields, does
    what the index [n] places higher does: index 0 transforms the last
    field, index -1 the one before it. *)
Theorem field_index_counts_from_end
    F fmul float_of_str available currency field multiplier row p :
  (- Z.of_nat (length row) < field ≤ 0)%Z →
  loop_body F fmul float_of_str available currency field multiplier row p
  = loop_body F fmul float_of_str available currency
      (field + Z.of_nat (length row)) multiplier row p.
Proof.
  intros H. unfold loop_body, py_getitem, py_setitem.
  rewrite (py_index_shift (length row) (field - 1)) by lia.
  by replace (field - 1 + Z.of_nat (length row))%Z
    with (field + Z.of_nat (length row) - 1)%Z by lia.
Qed.

Lemma field_index_counts_from_end_witness :
  (- Z.of_nat (length [str "5"; str "10.00"]) < 0 ≤ 0)%Z ∧
  Example.loop_body 0 150 [str "5"; str "10.00"] Example.start
  = Example.loop_body 2 150 [str "5"; str "10.00"] Example.start.
Proof.
  assert ((- Z.of_nat (length [str "5"; str "10.00"]) < 0 ≤ 0)%Z) as H
    by (simpl; lia).
  split; [exact H|].
  exact (field_index_counts_from_end Z Example.fmul Example.float_of_str
           Example.available Example.currency 0%Z 150%Z
           [str "5"; str "10.00"] Example.start H).
Defined.

(** X13: a blank line in the input ends the run with [IndexError], whatever
    the field index is: the reader gives it an empty record, and no index
    names a field of an empty record. The lines before it have been
    processed; the lines after it are not. *)
Theorem blank_line_aborts
    F fmul float_of_str available currency field multiplier
    before blank after p p' :
  Forall (λ c, isspace c = true) blank →
  main_naive F fmul float_of_str available currency field multiplier
    before p = Some (p', Ok tt) →
  main_naive F fmul float_of_str available currency field multiplier
    (before ++ blank :: after) p = Some (p', Raise IndexError).
Proof.
  intros Hblank. unfold main_naive.
  destruct (reader before) as [rows1|] eqn:H1; [|done].
  destruct (reader_total after) as [rows2 H2].
  assert (reader (blank :: after) = Some ([] :: rows2)) as H3.
  { apply (reader_app [blank] after [[]] rows2); [|done].
    unfold reader. simpl. by rewrite tokenize_blank_line. }
  rewrite (reader_app _ _ _ _ H1 H3). intros [= Hpre]. f_equal.
  eapply main_loop_raise; [exact Hpre|].
  apply loop_body_index_error. simpl. lia.
Qed.

Lemma blank_line_aborts_witness :
  Forall (λ c, isspace c = true) [newline] ∧
  Run.main_naive Z Example.fmul Example.float_of_str Example.available
    Example.currency 2%Z 150%Z [] Example.start = Some (Example.start, Ok tt) ∧
  Run.main_naive Z Example.fmul Example.float_of_str Example.available
    Example.currency 2%Z 150%Z ([] ++ [newline] :: [str "5,10.00" ++ [newline]])
    Example.start = Some (Example.start, Raise IndexError).
Proof.
  assert (Forall (λ c, isspace c = true) [newline]) as H1
    by (repeat constructor).
  assert (Run.main_naive Z Example.fmul Example.float_of_str Example.available
            Example.currency 2%Z 150%Z [] Example.start
          = Some (Example.start, Ok tt)) as H2 by reflexivity.
  split; [exact H1|]. split; [exact H2|].
  exact (blank_line_aborts Z Example.fmul Example.float_of_str
           Example.available Example.currency 2%Z 150%Z []
           [newline] [str "5,10.00" ++ [newline]]
           Example.start Example.start H1 H2).
Defined.

(** X14: when [convert_currency] returns, the requested locale could be set
    and the text returned is the formatting of the value times the
    multiplier, made in the state in which [LC_MONETARY] is the requested
    locale, the other categories are as at entry, and the two override
    entries have been laid over the override dictionary of entry. *)
Theorem convert_currency_result
    F fmul available currency value multiplier loc sym st st' converted :
  convert_currency F fmul available currency value multiplier loc sym st
    = (st', Ok converted) →
  available loc = true ∧
  ∃ st_fmt,
    currency st_fmt (fmul value multiplier) sym true true = Some converted ∧
    categories st_fmt LC_MONETARY = loc ∧
    (∀ cat, cat ≠ LC_MONETARY → categories st_fmt cat = categories st cat) ∧
    override_localeconv st_fmt
    = <["n_cs_precedes"%string := 1%Z]>
        (<["p_cs_precedes"%string := 1%Z]> (override_localeconv st)).
Proof.
  intros H. pose proof H as [_ Hfmt]%convert_currency_inv. split.
  - revert H. unfold convert_currency, bind, getlocale, setlocale. simpl.
    by destruct (available loc).
  - exists (during_call loc st). split_and!; [done | done | | done].
    intros cat Hcat. simpl. by rewrite decide_False.
Qed.

Lemma convert_currency_result_witness :
  let st := locale Example.start in
  Example.convert_currency 1000 150 "fr_FR" false st
    = (after_call "fr_FR" st, Ok (str "15,00")) ∧
  Example.available "fr_FR"%string = true ∧
  ∃ st_fmt,
    Example.currency st_fmt (Example.fmul 1000 150) false true true
      = Some (str "15,00") ∧
    categories st_fmt LC_MONETARY = "fr_FR"%string ∧
    (∀ cat, cat ≠ LC_MONETARY → categories st_fmt cat = categories st cat) ∧
    override_localeconv st_fmt
    = <["n_cs_precedes"%string := 1%Z]>
        (<["p_cs_precedes"%string := 1%Z]> (override_localeconv st)).
Proof.
  intros st.
  assert (Example.convert_currency 1000 150 "fr_FR" false st
          = (after_call "fr_FR" st, Ok (str "15,00"))) as H by reflexivity.
  split; [exact H|].
  exact (convert_currency_result Z Example.fmul Example.available
           Example.currency 1000%Z 150%Z "fr_FR" false st
           (after_call "fr_FR" st) (str "15,00") H).
Defined.

(** X15: when the requested locale cannot be set, [convert_currency]
    raises [locale.Error] and leaves the locale state as it was: no
    override entry has been installed. *)
Theorem convert_currency_unavailable_locale
    F fmul available currency value multiplier loc sym st :
  available loc = false →
  convert_currency F fmul available currency value multiplier loc sym st
  = (st, Raise LocaleError).
Proof.
  intros Hloc.
  unfold convert_currency, bind, getlocale, setlocale. simpl.
  by rewrite Hloc.
Qed.

Lemma convert_currency_unavailable_locale_witness :
  let available := λ name : string, bool_decide (name = "C"%string) in
  available "fr_FR"%string = false ∧
  convert_currency Z Example.fmul available Example.currency
    1000%Z 150%Z "fr_FR" false (locale Example.start)
  = (locale Example.start, Raise LocaleError).
Proof.
  intros available.
  assert (available "fr_FR"%string = false) as H by reflexivity.
  split; [exact H|].
  exact (convert_currency_unavailable_locale Z Example.fmul available
           Example.currency 1000%Z 150%Z "fr_FR" false
           (locale Example.start) H).
Defined.

(** X16: when the formatting fails, [convert_currency] raises [ValueError]
    without restoring anything: [LC_MONETARY] is left at the requested
    locale and the two override entries are left installed. *)
Theorem convert_currency_format_failure
    F fmul available currency value multiplier loc sym st :
  available loc = true →
  currency (during_call loc st) (fmul value multiplier) sym true true = None →
  ∃ st',
    convert_currency F fmul available currency value multiplier loc sym st
      = (st', Raise ValueError) ∧
    categories st' LC_MONETARY = loc ∧
    (∀ cat, cat ≠ LC_MONETARY → categories st' cat = categories st cat) ∧
    override_localeconv st' !! "p_cs_precedes"%string = Some 1%Z ∧
    override_localeconv st' !! "n_cs_precedes"%string = Some 1%Z.
Proof.
  intros Hloc Hfmt. exists (during_call loc st). split_and!.
  - unfold convert_currency, bind, getlocale, setlocale, override_update,
      locale_currency, ret. simpl. rewrite Hloc. simpl.
    fold (during_call loc st). by rewrite Hfmt.
  - reflexivity.
  - intros cat Hcat. simpl. by rewrite decide_False.
  - simpl. by rewrite lookup_insert_ne, lookup_insert_eq.
  - simpl. by rewrite lookup_insert_eq.
Qed.

Lemma convert_currency_format_failure_witness :
  Example.available "fr_FR"%string = true ∧
  Example.currency (during_call "fr_FR" (locale Example.start))
    (Example.fmul 1000 100) false true true = None ∧
  ∃ st',
    Example.convert_currency 1000 100 "fr_FR" false (locale Example.start)
      = (st', Raise ValueError) ∧
    categories st' LC_MONETARY = "fr_FR"%string ∧
    (∀ cat, cat ≠ LC_MONETARY →
            categories st' cat = categories (locale Example.start) cat) ∧
    override_localeconv st' !! "p_cs_precedes"%string = Some 1%Z ∧
    override_localeconv st' !! "n_cs_precedes"%string = Some 1%Z.
Proof.
  assert (Example.available "fr_FR"%string = true) as H1 by reflexivity.
  assert (Example.currency (during_call "fr_FR" (locale Example.start))
            (Example.fmul 1000 100) false true true = None) as H2
    by reflexivity.
  split; [exact H1|]. split; [exact H2|].
  exact (convert_currency_format_failure Z Example.fmul Example.available
           Example.currency 1000%Z 100%Z "fr_FR" false
           (locale Example.start) H1 H2).
Defined.

(** X17: a second call changes nothing more: after a call that returned,
    another call that returns leaves every locale category and the whole
    override dictionary as the first call left them. *)
Theorem convert_currency_second_call
    F fmul available currency v1 m1 v2 m2 loc1 loc2 sym1 sym2
    st st1 st2 c1 c2 :
  convert_currency F fmul available currency v1 m1 loc1 sym1 st
    = (st1, Ok c1) →
  convert_currency F fmul available currency v2 m2 loc2 sym2 st1
    = (st2, Ok c2) →
  (∀ cat, categories st2 cat = categories st1 cat) ∧
  override_localeconv st2 = override_localeconv st1.
Proof.
  intros [-> _]%convert_currency_inv [-> _]%convert_currency_inv. split.
  - intros cat. simpl. destruct (decide (cat = LC_MONETARY)) as [->|]; done.
  - simpl. apply map_eq. intros key.
    rewrite !lookup_insert. by repeat case_decide.
Qed.

Lemma convert_currency_second_call_witness :
  let st := locale Example.start in
  let st1 := after_call "fr_FR" st in
  let st2 := after_call "fr_FR" st1 in
  Example.convert_currency 1000 150 "fr_FR" false st = (st1, Ok (str "15,00")) ∧
  Example.convert_currency 1000 150 "fr_FR" false st1 = (st2, Ok (str "15,00")) ∧
  (∀ cat, categories st2 cat = categories st1 cat) ∧
  override_localeconv st2 = override_localeconv st1.
Proof.
  intros st st1 st2.
  assert (Example.convert_currency 1000 150 "fr_FR" false st
          = (st1, Ok (str "15,00"))) as H1 by reflexivity.
  assert (Example.convert_currency 1000 150 "fr_FR" false st1
          = (st2, Ok (str "15,00"))) as H2 by reflexivity.
  split; [exact H1|]. split; [exact H2|].
  exact (convert_currency_second_call Z Example.fmul Example.available
           Example.currency 1000%Z 150%Z 1000%Z 150%Z "fr_FR" "fr_FR"
           false false st st1 st2 (str "15,00") (str "15,00") H1 H2).
Defined.

Lemma serialize_spec row : serialize row = Spec.serialized row.
Proof.
  unfold serialize, Spec.serialized.
  rewrite writerow_items_map, join_line_of. f_equal.
  apply list_fmap_ext. intros _ f _. apply rendered_spec.
Qed.

(** X18: the whole path for a one-line input. For a line of unquoted fields
    (not empty, without comma or quote, not ending in whitespace, not
    beginning with the letter s), a field index from 1 to the number of
    fields whose field parses as a number, and a call of [convert_currency]
    on that number that returns: the run returns, in the locale state the
    call left, and has appended to the output the line of the same record
    with that one field replaced by the text the call returned; the writer
    quotes that text if and only if it has a comma. *)
Theorem single_line_run
    F fmul float_of_str available currency field multiplier record p
    fld value st' converted :
  Forall returned_as_is record →
  (1 ≤ field ≤ Z.of_nat (length record))%Z →
  record !! Z.to_nat (field - 1) = Some fld →
  float_of_str fld = Some value →
  convert_currency F fmul available currency value multiplier "fr_FR" false
    (locale p) = (st', Ok converted) →
  main_naive F fmul float_of_str available currency field multiplier
    [join [comma] record ++ [newline]] p
  = Some ({| locale := st';
             output_file :=
               output_file p ++
               Spec.serialized (<[Z.to_nat (field - 1) := converted]> record) |},
          Ok tt).
Proof.
  intros Hrec Hk Hfld Hval Hconv. unfold main_naive.
  assert (reader [join [comma] record ++ [newline]] = Some [record]) as ->.
  { unfold reader. simpl. by rewrite tokenize_join_line. }
  assert (py_index (length record) (field - 1) = Some (Z.to_nat (field - 1)))
    as Hidx by (apply py_index_in_range; lia).
  cbn [main_loop]. unfold loop_body.
  rewrite (bind_ok _ _ p {| locale := st';
                            output_file :=
                              output_file p ++
                              serialize (<[Z.to_nat (field - 1) := converted]>
                                           record) |} tt).
  { unfold ret. by rewrite serialize_spec. }
  rewrite (bind_ok _ _ p p fld).
  2: { unfold lift, py_getitem. by rewrite Hidx, Hfld. }
  rewrite (bind_ok _ _ p p value).
  2: { unfold float. by rewrite Hval. }
  rewrite (bind_ok _ _ p {| locale := st'; output_file := output_file p |}
             converted).
  2: { unfold in_locale. by rewrite Hconv. }
  erewrite bind_ok.
  2: { unfold lift, py_setitem. by rewrite Hidx. }
  reflexivity.
Qed.

Lemma single_line_run_witness :
  Forall returned_as_is [str "5"; str "10.00"] ∧
  Example.convert_currency 1000 150 "fr_FR" false (locale Example.start)
    = (after_call "fr_FR" (locale Example.start), Ok (str "15,00")) ∧
  Run.main_naive Z Example.fmul Example.float_of_str Example.available
    Example.currency 2%Z 150%Z [str "5,10.00" ++ [newline]] Example.start
  = Some ({| locale := after_call "fr_FR" (locale Example.start);
             output_file :=
               output_file Example.start ++
               Spec.serialized (<[Z.to_nat (2 - 1) := str "15,00"]>
                                  [str "5"; str "10.00"]) |},
          Ok tt).
Proof.
  assert (Forall returned_as_is [str "5"; str "10.00"]) as H
    by (repeat (constructor; [unquoted_field|]); constructor).
  assert (Example.convert_currency 1000 150 "fr_FR" false (locale Example.start)
          = (after_call "fr_FR" (locale Example.start), Ok (str "15,00")))
    as Hconv by reflexivity.
  split; [exact H|]. split; [exact Hconv|].
  apply (single_line_run Z Example.fmul Example.float_of_str
           Example.available Example.currency 2%Z 150%Z [str "5"; str "10.00"]
           Example.start (str "10.00") 1000%Z
           (after_call "fr_FR" (locale Example.start)) (str "15,00") H).
  - simpl. lia.
  - reflexivity.
  - reflexivity.
  - exact Hconv.
Defined.

(** X19: the records are processed one after the other with nothing kept
    between them but the locale state and the output file: a run over an
    input is the run over its first lines followed, if that one returned,
    by the run over the remaining lines from the state it reached. *)
Theorem run_is_sequential
    F fmul float_of_str available currency field multiplier first rest p :
  main_naive F fmul float_of_str available currency field multiplier
    (first ++ rest) p
  = match main_naive F fmul float_of_str available currency field multiplier
            first p with
    | Some (p1, Ok _) =>
        main_naive F fmul float_of_str available currency field multiplier
          rest p1
    | Some (p1, Raise e) => Some (p1, Raise e)
    | None => None
    end.
Proof.
  unfold main_naive.
  destruct (reader_total first) as [rows1 H1].
  destruct (reader_total rest) as [rows2 H2].
  rewrite (reader_app _ _ _ _ H1 H2), H1, H2.
  rewrite (main_loop_app F fmul float_of_str available currency).
  by destruct (main_loop F fmul float_of_str available currency
                 field multiplier rows1 p) as [p1 [[]|e]].
Qed.
